(** * DiveIn4e website: the access gate, the navigation controller, the
      suggestion-form validator and the translation lookup of [src/App.js]

    The development embeds the stateful logic of [App.js] as Rocq functions
    over explicit state records and proves the properties the specification
    states about it.

    Conventions of the embedding.
    - A JavaScript string is a [string]; one [ascii] stands for one code unit
      below 256.  The white-space class of ECMAScript ([String.prototype.trim],
      [\s], [parseInt]) restricted to these code units is TAB, LF, VT, FF, CR,
      SPACE and NBSP.
    - A JavaScript number that the code manipulates is an integer or [NaN]
      ([number]), exact and printed in full as JavaScript does for the
      magnitudes at hand (counters and epoch milliseconds, far below 2^53);
      wall-clock time ([new Date().getTime()]) is a [Z] that the environment
      supplies with every event.
    - [localStorage] and [sessionStorage] are finite maps from strings to
      strings; [getItem] of an absent key is [None] (JavaScript [null]).
    - A React state cell is a record field; an event handler is a function
      from the state before the event to the state after the re-render. *)

From Stdlib Require Import ZArith String Ascii Bool List Lia.
From Stdlib Require Import DecimalString DecimalZ DecimalPos.
From stdpp Require Import base option gmap strings list.

Local Open Scope string_scope.
Local Open Scope Z_scope.

(** ** JavaScript primitives used by the code *)

Module JS.

(** White space and line terminators, for code units below 256. *)
Definition is_space (c : ascii) : bool :=
  let n := Z.of_N (N_of_ascii c) in
  ((9 <=? n) && (n <=? 13)) || (n =? 32) || (n =? 160).

Fixpoint trimStart (s : string) : string :=
  match s with
  | String c s' => if is_space c then trimStart s' else s
  | EmptyString => EmptyString
  end.

(** [revs acc s] is the reversal of [s] followed by [acc]. *)
Fixpoint revs (acc s : string) : string :=
  match s with
  | String c s' => revs (String c acc) s'
  | EmptyString => acc
  end.

Definition trimEnd (s : string) : string :=
  revs EmptyString (trimStart (revs EmptyString s)).

(** [String.prototype.trim]. *)
Definition trim (s : string) : string := trimEnd (trimStart s).

(** Truthiness of a string: every string but the empty one. *)
Definition truthy_string (s : string) : bool :=
  match s with EmptyString => false | String _ _ => true end.

(** Numbers: the integers, and [NaN]. *)
Inductive number : Type :=
| NaN
| Int (z : Z).

(** [a + b] on numbers. *)
Definition add (a b : number) : number :=
  match a, b with
  | Int x, Int y => Int (x + y)
  | _, _ => NaN
  end.

(** [a >= b]: a comparison with [NaN] is false. *)
Definition geb (a b : number) : bool :=
  match a, b with
  | Int x, Int y => y <=? x
  | _, _ => false
  end.

(** [Number.prototype.toString] on an integer: its decimal numeral, with a
    leading minus sign when negative. *)
Definition toString (n : number) : string :=
  match n with
  | NaN => "NaN"
  | Int z => NilZero.string_of_int (Z.to_int z)
  end.

(** Value of a digit in the given radix. *)
Definition digit_value (radix : Z) (c : ascii) : option Z :=
  let n := Z.of_N (N_of_ascii c) in
  let v :=
    if (48 <=? n) && (n <=? 57) then Some (n - 48)
    else if (97 <=? n) && (n <=? 122) then Some (n - 87)
    else if (65 <=? n) && (n <=? 90) then Some (n - 55)
    else None in
  match v with
  | Some d => if d <? radix then Some d else None
  | None => None
  end.

Definition isDecimalDigit (c : ascii) : bool :=
  match digit_value 10 c with Some _ => true | None => false end.

(** The longest prefix of digits, read in the given radix; [None] when the
    prefix is empty. *)
Fixpoint digits (radix : Z) (s : string) (acc : option Z) : option Z :=
  match s with
  | String c s' =>
      match digit_value radix c with
      | Some d =>
          digits radix s'
            (Some (match acc with Some a => a * radix + d | None => d end))
      | None => acc
      end
  | EmptyString => acc
  end.

(** The sign that [parseInt] reads, and the rest of the string. *)
Definition sign_prefix (s : string) : Z * string :=
  match s with
  | String "-" r => (-1, r)
  | String "+" r => (1, r)
  | _ => (1, s)
  end.

(** The radix that [parseInt] selects when none is given: 16 after a [0x] or
    [0X] prefix, which is dropped, and 10 otherwise. *)
Definition radix_prefix (s : string) : Z * string :=
  match s with
  | String "0" (String "x" r) => (16, r)
  | String "0" (String "X" r) => (16, r)
  | _ => (10, s)
  end.

Definition magnitude (s : string) : option Z :=
  let '(radix, s3) := radix_prefix s in digits radix s3 None.

(** [parseInt(s)] with no radix argument: leading white space is skipped, a
    sign is read, the radix is selected, and the longest prefix of digits is
    the value; no digit gives [NaN]. *)
Definition parseInt (s : string) : number :=
  let '(sign, s2) := sign_prefix (trimStart s) in
  match magnitude s2 with
  | Some m => Int (sign * m)
  | None => NaN
  end.

End JS.

(** ** The access gate: component [SecretGardenLock] *)

Module Gate.
Import JS.

(** The passcode literal compared in [handleSubmit]. *)
Definition secret : string := "080607012025".

(** Attempts allowed before a lockout, and the lockout length
    [15 * 60 * 1000] in milliseconds. *)
Definition maxAttempts : Z := 5.
Definition lockDuration : Z := 15 * 60 * 1000.

(** The state cells of the component ([code], the text of the input box, is
    the argument of [handleSubmit]). *)
Record LockState : Type := mkLock {
  attempts : number;
  isLocked : bool;
  lockUntil : option Z
}.

(** The component state together with the two browser stores it uses. *)
Record Gate : Type := mkGate {
  mem : LockState;
  localStorage : gmap string string;
  sessionStorage : gmap string string
}.

(** The state cells at mount: [useState(0)], [useState(false)],
    [useState(null)]. *)
Definition fresh : LockState := mkLock (Int 0) false None.

(** [getItem] followed by the truthiness test [if (saved)]: an absent key and
    an empty string both fail the test. *)
Definition savedItem (ls : gmap string string) (k : string) : option string :=
  match ls !! k with
  | Some s => if truthy_string s then Some s else None
  | None => None
  end.

(** The mount effect ("Check if already locked"), run on the fresh state. *)
Definition initialize (now : Z) (ls : gmap string string)
    (ss : gmap string string) : Gate :=
  let '(locked, until, ls1) :=
    match savedItem ls "secretLockUntil" with
    | Some savedLockUntil =>
        match parseInt savedLockUntil with
        | Int lockTime =>
            if now <? lockTime
            then (true, Some lockTime, ls)
            else (false, None, delete "secretLockUntil" ls)
        | NaN =>
            (* [now < NaN] is false: the else branch *)
            (false, None, delete "secretLockUntil" ls)
        end
    | None => (false, None, ls)
    end in
  let att :=
    match savedItem ls1 "secretAttempts" with
    | Some savedAttempts => parseInt savedAttempts
    | None => attempts fresh
    end in
  mkGate (mkLock att locked until) ls1 ss.

(** Truthiness of the [lockUntil] cell: [null] and [0] are falsy. *)
Definition truthy_lockUntil (o : option Z) : bool :=
  match o with
  | Some t => negb (t =? 0)
  | None => false
  end.

(** The guard [isLocked && lockUntil] of the timer effect and of
    [remainingTime]. *)
Definition locked (l : LockState) : bool :=
  isLocked l && truthy_lockUntil (lockUntil l).

(** One firing of the one-second interval ("Handle lockout timer").  The
    interval exists only while [isLocked && lockUntil] holds. *)
Definition tick (now : Z) (g : Gate) : Gate :=
  if locked (mem g) then
    match lockUntil (mem g) with
    | Some t =>
        if t <=? now
        then mkGate (mkLock (Int 0) false None)
               (delete "secretAttempts"
                  (delete "secretLockUntil" (localStorage g)))
               (sessionStorage g)
        else g
    | None => g
    end
  else g.

(** [handleSubmit]: the boolean tells whether [onUnlock] was called. *)
Definition handleSubmit (code : string) (now : Z) (g : Gate) : bool * Gate :=
  if isLocked (mem g) || negb (truthy_string (trim code)) then (false, g)
  else if String.eqb code secret then
    (true,
     mkGate (mem g)
       (delete "secretAttempts" (localStorage g))
       (<["secretUnlocked" := "true"]> (sessionStorage g)))
  else
    let newAttempts := add (attempts (mem g)) (Int 1) in
    let ls1 := <["secretAttempts" := toString newAttempts]> (localStorage g) in
    if geb newAttempts (Int 5) then
      let lockTime := now + lockDuration in
      (false,
       mkGate (mkLock newAttempts true (Some lockTime))
         (<["secretLockUntil" := toString (Int lockTime)]> ls1)
         (sessionStorage g))
    else
      (false,
       mkGate (mkLock newAttempts (isLocked (mem g)) (lockUntil (mem g)))
         ls1 (sessionStorage g)).

(** *** Vocabulary of the gate's specification *)

(** A wrong-code submission: a code that passes the blank-input guard of
    [handleSubmit] and differs from the passcode. *)
Definition wrongCode (code : string) : Prop :=
  truthy_string (trim code) = true /\ code <> secret.

(** No lockout: neither in the component state nor in durable storage. *)
Definition noLockout (g : Gate) : Prop :=
  isLocked (mem g) = false /\ lockUntil (mem g) = None /\
  localStorage g !! "secretLockUntil" = None.

(** A run of submissions, each with the time at which it happens. *)
Definition submitAll (subs : list (string * Z)) (g : Gate) : Gate :=
  fold_left (fun g s => snd (handleSubmit (fst s) (snd s) g)) subs g.

(** The state [tick] produces when the lockout has expired. *)
Definition cleared (g : Gate) : Gate :=
  mkGate (mkLock (Int 0) false None)
    (delete "secretAttempts" (delete "secretLockUntil" (localStorage g)))
    (sessionStorage g).

(** The lockout deadline has passed. *)
Definition expired (now : Z) (l : LockState) : bool :=
  match lockUntil l with
  | Some t => t <=? now
  | None => false
  end.

(** The two lock cells agree: [setIsLocked] and [setLockUntil] are always
    called together. *)
Definition coherent (l : LockState) : Prop :=
  isLocked l = true <-> lockUntil l <> None.

(** A well-formed gate: the lock cells agree, and an unlocked component has
    left no usable lockout deadline in durable storage. *)
Definition settled (g : Gate) : Prop :=
  coherent (mem g) /\
  (isLocked (mem g) = false ->
   savedItem (localStorage g) "secretLockUntil" = None).

(** The gate states that the operations produce, from the durable store
    [ls0] found at the first mount.  A later [initialize] is a remount of the
    component (a reload, or a return to the lock screen): the state cells
    start afresh and the durable store is kept.  The session store is shared
    with the rest of the page and is whatever it is at each mount. *)
Inductive reachable (ls0 : gmap string string) : Gate -> Prop :=
| reach_mount (now : Z) (ss : gmap string string) :
    reachable ls0 (initialize now ls0 ss)
| reach_remount (now : Z) (ss : gmap string string) (g : Gate) :
    reachable ls0 g -> reachable ls0 (initialize now (localStorage g) ss)
| reach_tick (now : Z) (g : Gate) :
    reachable ls0 g -> reachable ls0 (tick now g)
| reach_submit (code : string) (now : Z) (g : Gate) :
    reachable ls0 g -> reachable ls0 (snd (handleSubmit code now g)).

(** *** The scenario of the specification *)

(** The wrong code of the scenario, the gate at a first visit (both stores
    empty, mounted at time 0), and runs of wrong submissions one second
    apart. *)
Definition wrongGuess : string := "000000000000".
Definition firstVisit : Gate := initialize 0 ∅ ∅.
Definition fourWrong : list (string * Z) :=
  [(wrongGuess, 1000); (wrongGuess, 2000); (wrongGuess, 3000);
   (wrongGuess, 4000)].
Definition fiveWrong : list (string * Z) :=
  (fourWrong ++ [(wrongGuess, 5000)])%list.

End Gate.

(** ** The application shell: component [DivingWebsite] *)

Module App.
Import JS Gate.

(** The delay of the [setTimeout] in [handleNavigation], in milliseconds. *)
Definition transitionDelay : Z := 350.

(** The navigation cells of [DivingWebsite], and the [setTimeout] callbacks of
    [handleNavigation] that have not run yet, oldest first, each with the time
    at which it is due and the page it was scheduled for. *)
Record Nav : Type := mkNav {
  currentPage : string;
  isTransitioning : bool;
  isMobileMenuOpen : bool;
  pending : list (Z * string)
}.

(** [handleNavigation(page)], called at time [now]. *)
Definition handleNavigation (page : string) (now : Z) (n : Nav) : Nav :=
  if String.eqb (currentPage n) page then n
  else mkNav (currentPage n) true (isMobileMenuOpen n)
         (pending n ++ [(now + transitionDelay, page)]).

(** The callback that [handleNavigation] scheduled for [page]. *)
Definition arrive (page : string) (n : Nav) : Nav :=
  mkNav page false false (pending n).

(** The oldest pending callback runs, once it is due. *)
Definition runTimer (now : Z) (n : Nav) : option Nav :=
  match pending n with
  | (due, page) :: rest =>
      if due <=? now
      then Some (arrive page
                   (mkNav (currentPage n) (isTransitioning n)
                      (isMobileMenuOpen n) rest))
      else None
  | [] => None
  end.

(** A bare [setCurrentPage(page)]. *)
Definition setCurrentPage (page : string) (n : Nav) : Nav :=
  mkNav page (isTransitioning n) (isMobileMenuOpen n) (pending n).

(** The whole application: the navigation cells, the [secretUnlocked] cell,
    the state of the [SecretGardenLock] instance when one is mounted, and the
    two browser stores. *)
Record App : Type := mkApp {
  nav : Nav;
  secretUnlocked : bool;
  lock : option LockState;
  local : gmap string string;
  session : gmap string string
}.

(** [renderCurrentPage] shows the lock screen: the page is ['secret-garden']
    and the garden is not unlocked. *)
Definition showsLock (a : App) : bool :=
  String.eqb (currentPage (nav a)) "secret-garden" && negb (secretUnlocked a).

(** [renderCurrentPage] shows the garden itself. *)
Definition showsGarden (a : App) : bool :=
  String.eqb (currentPage (nav a)) "secret-garden" && secretUnlocked a.

(** The re-render that follows an event: a lock screen that appears is
    mounted and its mount effect runs; one that disappears is unmounted and
    its state cells are dropped; one that stays keeps its state. *)
Definition render (now : Z) (a : App) : App :=
  if showsLock a then
    match lock a with
    | Some _ => a
    | None =>
        let g := initialize now (local a) (session a) in
        mkApp (nav a) (secretUnlocked a) (Some (mem g))
          (localStorage g) (sessionStorage g)
    end
  else mkApp (nav a) (secretUnlocked a) None (local a) (session a).

(** The application after a page load: the cells of [DivingWebsite] start
    afresh and its mount effect reads the session flag; the stores are what
    the browser kept. *)
Definition load (now : Z) (ls ss : gmap string string) : App :=
  let unlocked :=
    match ss !! "secretUnlocked" with
    | Some v => String.eqb v "true"
    | None => false
    end in
  render now (mkApp (mkNav "home" false false []) unlocked None ls ss).

(** [handleSecretUnlock], the [onUnlock] callback of the lock screen. *)
Definition handleSecretUnlock (a : App) : App :=
  mkApp (setCurrentPage "secret-garden" (nav a)) true (lock a)
    (local a) (session a).

Definition withNav (n : Nav) (a : App) : App :=
  mkApp n (secretUnlocked a) (lock a) (local a) (session a).

Definition withGate (g : Gate) (a : App) : App :=
  mkApp (nav a) (secretUnlocked a) (Some (mem g))
    (localStorage g) (sessionStorage g).

(** What can happen to the application. *)
Inductive event : Type :=
| Navigate (page : string)   (* a button wired to [handleNavigation(page)] *)
| ClickSecretGarden          (* the [secretGarden] entry of the header *)
| Timeout                    (* the oldest pending navigation callback *)
| SubmitCode (code : string) (* the form of the lock screen *)
| LockTick                   (* the one-second interval of the lock screen *)
| ReturnToSurface            (* [handleReturn] of the garden *)
| Reload.                    (* the page is loaded again *)

(** The handler of an event, before the re-render. *)
Definition handle (e : event) (now : Z) (a : App) : App :=
  match e with
  | Navigate page => withNav (handleNavigation page now (nav a)) a
  | ClickSecretGarden =>
      if secretUnlocked a
      then withNav (handleNavigation "secret-garden" now (nav a)) a
      else withNav (setCurrentPage "secret-garden" (nav a)) a
  | Timeout =>
      match runTimer now (nav a) with
      | Some n => withNav n a
      | None => a
      end
  | SubmitCode code =>
      match lock a with
      | Some l =>
          let '(granted, g) :=
            handleSubmit code now (mkGate l (local a) (session a)) in
          if granted then handleSecretUnlock (withGate g a) else withGate g a
      | None => a
      end
  | LockTick =>
      match lock a with
      | Some l => withGate (tick now (mkGate l (local a) (session a))) a
      | None => a
      end
  | ReturnToSurface =>
      if showsGarden a
      then load now (local a) (delete "secretUnlocked" (session a))
      else a
  | Reload => load now (local a) (session a)
  end.

Definition step (e : event) (now : Z) (a : App) : App :=
  render now (handle e now a).

(** A run of events, each with its time. *)
Definition run (es : list (event * Z)) (a : App) : App :=
  fold_left (fun a e => step (fst e) (snd e) a) es a.

(** The application states that arise from a first load with the stores
    [ls0] and [ss0]. *)
Inductive reachable (ls0 ss0 : gmap string string) : App -> Prop :=
| reach_load (now : Z) : reachable ls0 ss0 (load now ls0 ss0)
| reach_step (e : event) (now : Z) (a : App) :
    reachable ls0 ss0 a -> reachable ls0 ss0 (step e now a).

(** The lock screen is mounted exactly when it is shown. *)
Definition rendered (a : App) : Prop :=
  lock a <> None <-> showsLock a = true.

(** An event that sets [currentPage] with a bare [setCurrentPage], outside
    [handleNavigation]: the header's secret-garden entry while the garden is
    locked. *)
Definition directRoute (e : event) (a : App) : Prop :=
  e = ClickSecretGarden /\ secretUnlocked a = false.

(** The lock screen of a reachable application is a reachable gate: when it
    is mounted, its cells and the two stores form a gate state that the gate
    operations produce; when it is not, the durable store is the initial one
    or the one some such gate state left behind. *)
Definition linked (ls0 : gmap string string) (a : App) : Prop :=
  match lock a with
  | Some l => Gate.reachable ls0 (mkGate l (local a) (session a))
  | None =>
      local a = ls0 \/
      exists g, Gate.reachable ls0 g /\ localStorage g = local a
  end.

(** The application at a first visit, and the same a moment after the
    ['about'] entry of the header was pressed. *)
Definition firstLoad : App := load 0 ∅ ∅.
Definition leavingHome : App := step (Navigate "about") 0 firstLoad.

End App.

(** ** The suggestion form: [validateForm] *)

Module Form.
Import JS.

(** Regular expressions, as far as the pattern of [validateForm] needs
    them. *)
Inductive regex : Type :=
| Never                       (* matches nothing *)
| Empty                       (* matches the empty string *)
| Class (p : ascii -> bool)   (* one character of a class *)
| Cat (r1 r2 : regex)
| Alt (r1 r2 : regex)
| Star (r : regex).

(** [r+]. *)
Definition Plus (r : regex) : regex := Cat r (Star r).

Fixpoint nullable (r : regex) : bool :=
  match r with
  | Never => false
  | Empty => true
  | Class _ => false
  | Cat r1 r2 => nullable r1 && nullable r2
  | Alt r1 r2 => nullable r1 || nullable r2
  | Star _ => true
  end.

(** What is left of [r] after reading [c]. *)
Fixpoint deriv (c : ascii) (r : regex) : regex :=
  match r with
  | Never => Never
  | Empty => Never
  | Class p => if p c then Empty else Never
  | Cat r1 r2 =>
      if nullable r1
      then Alt (Cat (deriv c r1) r2) (deriv c r2)
      else Cat (deriv c r1) r2
  | Alt r1 r2 => Alt (deriv c r1) (deriv c r2)
  | Star r1 => Cat (deriv c r1) (Star r1)
  end.

(** Some prefix of [s] matches [r]. *)
Fixpoint matchAtStart (r : regex) (s : string) : bool :=
  nullable r ||
  match s with
  | String c s' => matchAtStart (deriv c r) s'
  | EmptyString => false
  end.

(** [RegExp.prototype.test] for a pattern without flags or anchors: a match
    is tried at every position of [s]. *)
Fixpoint test (r : regex) (s : string) : bool :=
  matchAtStart r s ||
  match s with
  | String _ s' => test r s'
  | EmptyString => false
  end.

(** [\S]: any character that is not white space. *)
Definition nonSpace (c : ascii) : bool := negb (is_space c).

Definition lit (a : ascii) : regex := Class (Ascii.eqb a).

(** The pattern [/\S+@\S+\.\S+/]. *)
Definition emailPattern : regex :=
  Cat (Plus (Class nonSpace))
    (Cat (lit "@")
       (Cat (Plus (Class nonSpace))
          (Cat (lit ".") (Plus (Class nonSpace))))).

(** The cell [suggestionForm]. *)
Record SuggestionForm : Type := mkForm {
  title : string;
  email : string
}.

(** [validateForm]: the [errors] object handed to [setFormErrors], and the
    boolean returned, [Object.keys(errors).length === 0]. *)
Definition validateForm (f : SuggestionForm) : gmap string string * bool :=
  let errors : gmap string string := ∅ in
  let errors :=
    if negb (truthy_string (trim (title f)))
    then <["title" := "Please enter your dive suggestion"]> errors
    else errors in
  let errors :=
    if truthy_string (email f) && negb (test emailPattern (email f))
    then <["email" := "Please enter a valid email address"]> errors
    else errors in
  (errors, Nat.eqb (size errors) 0).

(** *** Vocabulary of the validator's specification *)

(** The strings a pattern matches. *)
Inductive matches : regex -> string -> Prop :=
| m_empty : matches Empty EmptyString
| m_class (p : ascii -> bool) (c : ascii) :
    p c = true -> matches (Class p) (String c EmptyString)
| m_cat (r1 r2 : regex) (s1 s2 : string) :
    matches r1 s1 -> matches r2 s2 -> matches (Cat r1 r2) (String.append s1 s2)
| m_alt_l (r1 r2 : regex) (s : string) :
    matches r1 s -> matches (Alt r1 r2) s
| m_alt_r (r1 r2 : regex) (s : string) :
    matches r2 s -> matches (Alt r1 r2) s
| m_star_nil (r : regex) : matches (Star r) EmptyString
| m_star_cons (r : regex) (s1 s2 : string) :
    matches r s1 -> matches (Star r) s2 ->
    matches (Star r) (String.append s1 s2).

(** Every character of [s] satisfies [p]. *)
Fixpoint allChars (p : ascii -> bool) (s : string) : bool :=
  match s with
  | String c s' => p c && allChars p s'
  | EmptyString => true
  end.

(** A non-empty run of characters none of which is white space. *)
Definition run (s : string) : Prop :=
  s <> EmptyString /\ allChars nonSpace s = true.

(** The shape [local@domain.tld], found anywhere in the string: three runs
    joined by an at sign and a dot. *)
Definition emailShape (s : string) : Prop :=
  exists pre l d t post,
    run l /\ run d /\ run t /\
    s = String.append pre
          (String.append l
             (String "@"
                (String.append d (String "." (String.append t post))))).

(** The form is valid: the title is not empty after trimming, and the email
    is empty or has the shape. *)
Definition valid (f : SuggestionForm) : Prop :=
  trim (title f) <> EmptyString /\
  (email f = EmptyString \/ emailShape (email f)).

End Form.

(** ** The translation lookup: [t] of [I18nProvider] *)

Module I18n.
Import JS.

(** The JavaScript values a lookup can meet: [undefined], [null], booleans,
    strings, numbers, arrays, plain objects with their own properties in
    source order, and the objects and functions of the host that are reached
    through a prototype chain. *)
#[local] Set Warnings "-register-all".
Inductive value : Type :=
| VUndefined
| VNull
| VBoolean (b : bool)
| VString (s : string)
| VNumber (n : number)
| VArray (items : list value)
| VObject (fields : list (string * value))
| VHost (name : string).

(** Truthiness, as [value || key] tests it. *)
Definition truthy (v : value) : bool :=
  match v with
  | VUndefined | VNull => false
  | VBoolean b => b
  | VString s => truthy_string s
  | VNumber NaN => false
  | VNumber (Int z) => negb (z =? 0)
  | VArray _ | VObject _ | VHost _ => true
  end.

(** An own property of a plain object. *)
Fixpoint ownField (k : string) (fields : list (string * value))
    : option value :=
  match fields with
  | (k', v) :: rest => if String.eqb k' k then Some v else ownField k rest
  | [] => None
  end.

(** A property name that is an array index: the decimal numeral of a
    natural number. *)
Definition arrayIndex (k : string) : option nat :=
  match parseInt k with
  | Int z =>
      if (0 <=? z) && String.eqb (toString (Int z)) k
      then Some (Z.to_nat z) else None
  | NaN => None
  end.

(** [split(sep)] with a one-character separator. *)
Fixpoint split (sep : ascii) (s : string) : list string :=
  match s with
  | String c s' =>
      if Ascii.eqb c sep then EmptyString :: split sep s'
      else match split sep s' with
           | x :: xs => String c x :: xs
           | [] => [String c EmptyString]
           end
  | EmptyString => [EmptyString]
  end.

(** How a property access ends: with a value, or with an exception (a
    [TypeError] of the language, or whatever an accessor of the host
    throws). *)
Inductive completion : Type :=
| Returns (v : value)
| Throws.

Section Lookup.

(** Properties found on the prototype chain, as the host provides them; an
    accessor found there returns a value or throws. *)
Variable inherited : value -> string -> completion.

(** The object [translations]. *)
Variable translations : value.

(** [v[k]]: a [TypeError] when [v] is [undefined] or [null]; otherwise own
    properties first (the fields of an object, the length and the elements
    of an array, the length and the characters of a string), then the
    prototype chain. *)
Definition getProp (v : value) (k : string) : completion :=
  match v with
  | VUndefined | VNull => Throws
  | VObject fields =>
      match ownField k fields with
      | Some x => Returns x
      | None => inherited v k
      end
  | VArray items =>
      if String.eqb k "length"
      then Returns (VNumber (Int (Z.of_nat (length items))))
      else match arrayIndex k with
           | Some i =>
               match nth_error items i with
               | Some x => Returns x
               | None => inherited v k
               end
           | None => inherited v k
           end
  | VString s =>
      if String.eqb k "length"
      then Returns (VNumber (Int (Z.of_nat (String.length s))))
      else match arrayIndex k with
           | Some i =>
               match String.get i s with
               | Some c => Returns (VString (String c EmptyString))
               | None => inherited v k
               end
           | None => inherited v k
           end
  | _ => inherited v k
  end.

(** [v?.[k]]: [undefined] when [v] is [undefined] or [null]. *)
Definition optionalGet (v : value) (k : string) : completion :=
  match v with
  | VUndefined | VNull => Returns VUndefined
  | _ => getProp v k
  end.

(** The loop [for (const k of keys) value = value?.[k]]: it ends with the
    last value, or with the first exception. *)
Fixpoint follow (keys : list string) (value : value) : completion :=
  match keys with
  | [] => Returns value
  | k :: rest =>
      match optionalGet value k with
      | Returns x => follow rest x
      | Throws => Throws
      end
  end.

(** The value the loop of [t] ends with: the key path followed from the
    table of the current locale. *)
Definition resolve (currentLang key : string) : completion :=
  match getProp translations currentLang with
  | Returns value => follow (split "." key) value
  | Throws => Throws
  end.

(** [t(key)]. *)
Definition t (currentLang key : string) : completion :=
  match resolve currentLang key with
  | Returns value => Returns (if truthy value then value else VString key)
  | Throws => Throws
  end.

End Lookup.

(** A host with nothing on its prototype chains. *)
Definition bareHost (v : value) (k : string) : completion :=
  Returns VUndefined.


(** An excerpt of [translations]: three groups of the English table and two
    entries of the Arabic one (its text appears as UTF-8 bytes). *)
Definition translationsExcerpt : value :=
  VObject
    [("en",
      VObject
        [("nav",
          VObject
            [("home", VString "Home");
             ("about", VString "About Me");
             ("info", VString "My Info");
             ("toMontion", VString "To Montion");
             ("secretGarden", VString "Secret Garden");
             ("skipToContent", VString "Skip to main content");
             ("toggleMenu", VString "Toggle navigation menu");
             ("toggleLanguage", VString "Switch to Arabic");
             ("toggleAudio", VString "Toggle background audio")]);
         ("hero",
          VObject
            [("title", VString "Discover the Mysteries of the Deep");
             ("cta", VString "Begin Your Knowledge Dive")]);
         ("info",
          VObject
            [("title", VString "Connect With Our Ocean Community");
             ("platforms",
              VObject
                [("youtube",
                  VObject [("name", VString "YouTube Channel")]);
                 ("instagram",
                  VObject [("name", VString "Instagram")])]);
             ("visitProfile", VString "Visit My Profile")])]);
     ("ar",
      VObject
        [("nav",
          VObject
            [("home", VString "الرئيسية");
             ("about", VString "من أنا")])])].

End I18n.

(** ** The lock screen: what [SecretGardenLock] shows *)

Module LockView.
Import JS Gate.

(** [Math.ceil(a / b)] for integers [a] and [b > 0].  The quotient of the
    code is a floating-point division; at the magnitudes at hand (differences
    of epoch milliseconds) a quotient that is not an integer stays away from
    the integers by far more than the rounding error, so the ceiling is the
    exact one. *)
Definition ceilDiv (a b : Z) : Z := - ((- a) / b).

(** [remainingTime]: the minutes shown in the lockout message. *)
Definition remainingTime (now : Z) (l : LockState) : Z :=
  if locked l then
    match lockUntil l with
    | Some t => ceilDiv (t - now) 60000
    | None => 0
    end
  else 0.

(** [a > b] and [a < b] on numbers: a comparison with [NaN] is false. *)
Definition gtb (a b : number) : bool :=
  match a, b with
  | Int x, Int y => y <? x
  | _, _ => false
  end.

Definition ltb (a b : number) : bool :=
  match a, b with
  | Int x, Int y => x <? y
  | _, _ => false
  end.

(** [a - b] on numbers. *)
Definition sub (a b : number) : number :=
  match a, b with
  | Int x, Int y => Int (x - y)
  | _, _ => NaN
  end.

(** The retry message is rendered: [attempts > 0 && attempts < 5]. *)
Definition showsRetry (l : LockState) : bool :=
  gtb (attempts l) (Int 0) && ltb (attempts l) (Int 5).

(** The number the retry message prints: [5 - attempts]. *)
Definition attemptsRemaining (l : LockState) : number :=
  sub (Int 5) (attempts l).

(** The lockout message is rendered: [isLocked]. *)
Definition showsLockout (l : LockState) : bool := isLocked l.

(** The input box and the submit button are disabled. *)
Definition inputDisabled (l : LockState) : bool := isLocked l.
Definition submitDisabled (code : string) (l : LockState) : bool :=
  isLocked l || negb (truthy_string (trim code)).

(** Durable storage as the gate itself writes it: the counter, when present,
    is the numeral of a positive integer, and the deadline, when present, is
    a numeral and comes with a counter of at least five. *)
Definition storeWritten (ls : gmap string string) : Prop :=
  (ls !! "secretAttempts" = None \/
   exists n, 1 <= n /\ ls !! "secretAttempts" = Some (toString (Int n))) /\
  (ls !! "secretLockUntil" = None \/
   exists t n,
     5 <= n /\ ls !! "secretLockUntil" = Some (toString (Int t)) /\
     ls !! "secretAttempts" = Some (toString (Int n))).

(** The counter of the component is a natural number, at least five when the
    gate is locked, and an unlocked gate has no deadline in storage. *)
Definition counted (g : Gate) : Prop :=
  storeWritten (localStorage g) /\
  (exists m, attempts (mem g) = Int m /\ 0 <= m /\
             (isLocked (mem g) = true -> 5 <= m)) /\
  (isLocked (mem g) = false -> localStorage g !! "secretLockUntil" = None).

End LockView.

(** ** The language of the page: [I18nProvider] *)

Module Locale.
Import JS Gate I18n.

(** The cell [currentLang] and the durable store. *)
Record Locale : Type := mkLocale {
  currentLang : string;
  store : gmap string string
}.

(** The initialiser of [currentLang], in a browser: the saved preference if
    there is one, whatever it is; otherwise Arabic when the primary subtag
    of [navigator.language] is ['ar'], and English in every other case. *)
Definition initialLang (ls : gmap string string) (navigatorLanguage : string)
    : string :=
  match savedItem ls "preferred-language" with
  | Some savedLang => savedLang
  | None =>
      let browserLang := hd EmptyString (split "-" navigatorLanguage) in
      if String.eqb browserLang "ar" then "ar" else "en"
  end.

Definition isRTL (l : Locale) : bool := String.eqb (currentLang l) "ar".

(** [toggleLanguage]. *)
Definition toggleLanguage (l : Locale) : Locale :=
  let newLang := if String.eqb (currentLang l) "en" then "ar" else "en" in
  mkLocale newLang (<["preferred-language" := newLang]> (store l)).

(** The page after a load. *)
Definition loadLocale (ls : gmap string string) (navigatorLanguage : string)
    : Locale :=
  mkLocale (initialLang ls navigatorLanguage) ls.

(** One of the two languages the page has a table for. *)
Definition supported (lang : string) : Prop := lang = "en" \/ lang = "ar".

(** No character of [s] is [c]. *)
Fixpoint without (c : ascii) (s : string) : bool :=
  match s with
  | String x s' => negb (Ascii.eqb x c) && without c s'
  | EmptyString => true
  end.

(** The value at the end of a path of own properties through nested
    objects: what the table itself says. *)
Fixpoint ownPath (keys : list string) (v : value) : option value :=
  match keys with
  | [] => Some v
  | k :: rest =>
      match v with
      | VObject fields =>
          match ownField k fields with
          | Some x => ownPath rest x
          | None => None
          end
      | _ => None
      end
  end.

End Locale.

(** ** Small components: [TypewriterText], the slideshow of [SecretGarden],
       [RippleButton] *)

Module Widgets.
Import JS.

(** The cells of [TypewriterText]. *)
Record Typewriter : Type := mkTypewriter {
  displayText : string;
  index : nat
}.

Definition typewriterStart : Typewriter := mkTypewriter EmptyString 0.

(** [text[i]] appended to a string: the character, or the text
    ['undefined'] past the end. *)
Definition charAt (i : nat) (text : string) : string :=
  match String.get i text with
  | Some c => String c EmptyString
  | None => "undefined"
  end.

(** One round of the effect of [TypewriterText] for the property [text]:
    while [index < text.length] a timer is set, and when it fires the next
    character is appended and [index] grows by one; otherwise no timer is
    set and nothing changes. *)
Definition typeStep (text : string) (w : Typewriter) : Typewriter :=
  if (index w <? String.length text)%nat
  then mkTypewriter (String.append (displayText w) (charAt (index w) text))
         (S (index w))
  else w.

(** The blinking cursor is rendered: [index === text.length]. *)
Definition cursorShown (text : string) (w : Typewriter) : bool :=
  Nat.eqb (index w) (String.length text).

(** The number of images of the slideshow, and one tick of its interval:
    [(prev + 1) % images.length]. *)
Definition imageCount : nat := 4.
Definition nextImage (prev : nat) : nat := (prev + 1) mod imageCount.

(** The cell [ripples] of a [RippleButton] (the ids of the ripples, each the
    [Date.now()] of its click) and the removal callbacks not yet run, oldest
    first, each with its due time and the id it removes. *)
Record Ripples : Type := mkRipples {
  ripples : list Z;
  removals : list (Z * Z)
}.

(** The delay of the removal, in milliseconds. *)
Definition rippleLife : Z := 600.

(** [createRipple] at time [now]; the boolean tells whether [onClick] was
    called (the button is given one). *)
Definition createRipple (disabled : bool) (now : Z) (r : Ripples)
    : bool * Ripples :=
  if disabled then (false, r)
  else (true,
        mkRipples (ripples r ++ [now])
          (removals r ++ [(now + rippleLife, now)])).

(** The oldest removal callback runs, once it is due: every ripple with its
    id is filtered out. *)
Definition runRemoval (now : Z) (r : Ripples) : Ripples :=
  match removals r with
  | (due, id) :: rest =>
      if due <=? now
      then mkRipples (filter (fun x => x <> id) (ripples r)) rest
      else r
  | [] => r
  end.

(** What happens to a button. *)
Inductive rippleEvent : Type :=
| Click (disabled : bool)
| RemovalDue.

Definition rippleStep (e : rippleEvent) (now : Z) (r : Ripples) : Ripples :=
  match e with
  | Click disabled => snd (createRipple disabled now r)
  | RemovalDue => runRemoval now r
  end.

Definition rippleRun (es : list (rippleEvent * Z)) : Ripples :=
  fold_left (fun r e => rippleStep (fst e) (snd e) r) es (mkRipples [] []).

End Widgets.

(** ** The suggestion form inside the page: [handleInputChange] and
       [handleSuggestionSubmit] *)

Module Suggest.
Import JS App Form.

(** The two fields that [handleInputChange] is called with. *)
Inductive field : Type := TitleField | EmailField.

Definition fieldName (f : field) : string :=
  match f with TitleField => "title" | EmailField => "email" end.

Definition otherField (f : field) : field :=
  match f with TitleField => EmailField | EmailField => TitleField end.

Definition getField (f : field) (form : SuggestionForm) : string :=
  match f with TitleField => title form | EmailField => email form end.

(** [{...prev, [field]: value}]. *)
Definition setField (f : field) (value : string) (form : SuggestionForm)
    : SuggestionForm :=
  match f with
  | TitleField => mkForm value (email form)
  | EmailField => mkForm (title form) value
  end.

(** The cells of [DivingWebsite] that the form uses, and the submissions
    that are waiting out their delay, oldest first, each with the time at
    which it resumes and the [currentPage] that its copy of
    [handleNavigation] closed over. *)
Record Shell : Type := mkShell {
  shellNav : Nav;
  suggestionForm : SuggestionForm;
  formErrors : gmap string string;
  isSubmitting : bool;
  awaiting : list (Z * string)
}.

(** The simulated delay of the submission, in milliseconds. *)
Definition submitDelay : Z := 1000.

(** The message under a field is rendered: [formErrors.field] is truthy. *)
Definition errorShown (errors : gmap string string) (name : string) : bool :=
  match errors !! name with
  | Some message => truthy_string message
  | None => false
  end.

(** [handleInputChange(field, value)]. *)
Definition handleInputChange (f : field) (value : string) (sh : Shell)
    : Shell :=
  mkShell (shellNav sh) (setField f value (suggestionForm sh))
    (if errorShown (formErrors sh) (fieldName f)
     then <[fieldName f := EmptyString]> (formErrors sh)
     else formErrors sh)
    (isSubmitting sh) (awaiting sh).

(** [handleNavigation(page)] as a closure that has seen [seen] as
    [currentPage]. *)
Definition handleNavigationSeen (seen page : string) (now : Z) (n : Nav)
    : Nav :=
  if String.eqb seen page then n
  else mkNav (currentPage n) true (isMobileMenuOpen n)
         (pending n ++ [(now + transitionDelay, page)]).

(** [handleSuggestionSubmit], up to its [await]. *)
Definition handleSuggestionSubmit (now : Z) (sh : Shell) : Shell :=
  let '(errors, ok) := validateForm (suggestionForm sh) in
  if ok
  then mkShell (shellNav sh) (suggestionForm sh) errors true
         (awaiting sh ++ [(now + submitDelay, currentPage (shellNav sh))])
  else mkShell (shellNav sh) (suggestionForm sh) errors (isSubmitting sh)
         (awaiting sh).

(** [handleSuggestionSubmit], from its [await] on, for the oldest waiting
    submission once its delay is over. *)
Definition resumeSubmit (now : Z) (sh : Shell) : Shell :=
  match awaiting sh with
  | (due, seen) :: rest =>
      if due <=? now
      then mkShell (handleNavigationSeen seen "thank-you" now (shellNav sh))
             (mkForm EmptyString EmptyString) ∅ false rest
      else sh
  | [] => sh
  end.

(** The oldest pending navigation callback runs, once it is due. *)
Definition shellTimeout (now : Z) (sh : Shell) : Shell :=
  match runTimer now (shellNav sh) with
  | Some n =>
      mkShell n (suggestionForm sh) (formErrors sh) (isSubmitting sh)
        (awaiting sh)
  | None => sh
  end.

End Suggest.

(** ** The pages of the application: [renderCurrentPage] *)

Module Pages.
Import JS Gate App.

(** What [renderCurrentPage] returns. *)
Inductive view : Type :=
| HomePage
| AboutPage
| InfoPage
| ToMontionPage
| ThankYouPage
| SecretGardenPage
| SecretGardenLockPage.

(** [renderCurrentPage]: the boolean tells whether the [default] branch of
    the [switch] was taken. *)
Definition renderCurrentPage (a : App) : view * bool :=
  let page := currentPage (nav a) in
  if String.eqb page "home" then (HomePage, false)
  else if String.eqb page "about" then (AboutPage, false)
  else if String.eqb page "info" then (InfoPage, false)
  else if String.eqb page "toMontion" then (ToMontionPage, false)
  else if String.eqb page "thank-you" then (ThankYouPage, false)
  else if String.eqb page "secret-garden" then
    (if secretUnlocked a then SecretGardenPage else SecretGardenLockPage,
     false)
  else (HomePage, true).

(** The pages that the call sites of [handleNavigation] name: the entries of
    the header other than the secret garden, the logo, the buttons of the
    message and thank-you pages, and the form. *)
Definition navigationTargets : list string :=
  ["home"; "about"; "info"; "toMontion"; "thank-you"].

(** The cases of the [switch]. *)
Definition knownPages : list string :=
  navigationTargets ++ ["secret-garden"].

(** The events that the page itself can raise. *)
Definition raised (e : event) : Prop :=
  match e with
  | Navigate page => page ∈ navigationTargets
  | _ => True
  end.

(** The delayed call [handleNavigation('thank-you')] of a form submission:
    it tests the [currentPage] that it closed over when the form was
    submitted, not the present one. *)
Definition lateThanks (seen : string) (now : Z) (a : App) : App :=
  render now
    (withNav (Suggest.handleNavigationSeen seen "thank-you" now (nav a)) a).

(** The application states that arise from a first load under the events
    that [allowed] admits and the delayed calls of form submissions. *)
Inductive arises (allowed : event -> Prop) (ls0 ss0 : gmap string string)
    : App -> Prop :=
| arise_load (now : Z) : arises allowed ls0 ss0 (load now ls0 ss0)
| arise_step (e : event) (now : Z) (a : App) :
    allowed e -> arises allowed ls0 ss0 a ->
    arises allowed ls0 ss0 (step e now a)
| arise_late (seen : string) (now : Z) (a : App) :
    arises allowed ls0 ss0 a ->
    arises allowed ls0 ss0 (lateThanks seen now a).

(** Every event is admitted. *)
Definition anyEvent (e : event) : Prop := True.

End Pages.

(** ** Facts about the JavaScript primitives *)

Module JSFacts.
Import JS.

(** Evaluate [digit_value] on a literal character. *)
Ltac eval_digit :=
  match goal with
  | |- context [digit_value ?r ?c] =>
      let v := eval vm_compute in (digit_value r c) in
      change (digit_value r c) with v; cbv iota beta
  end.

(** Reading the numeral of [d] after an accumulator [acc > 0]. *)
Lemma digits_uint_pos (d : Decimal.uint) (acc : positive) :
  digits 10 (NilEmpty.string_of_uint d) (Some (Z.pos acc))
  = Some (Z.pos (Pos.of_uint_acc d acc)).
Proof.
  revert acc.
  induction d; intros acc;
    simpl NilEmpty.string_of_uint; simpl Pos.of_uint_acc;
    [reflexivity | ..];
    cbn [digits]; eval_digit;
    match goal with
    | |- digits 10 _ (Some ?a) = Some (Z.pos (Pos.of_uint_acc d ?b)) =>
        replace a with (Z.pos b) by lia; apply IHd
    end.
Qed.

(** Reading the numeral of [d] from the start, leading zeros included. *)
Lemma digits_uint_zero (d : Decimal.uint) :
  digits 10 (NilEmpty.string_of_uint d) (Some 0)
  = Some (Z.of_N (Pos.of_uint d)).
Proof.
  induction d; simpl NilEmpty.string_of_uint; simpl Pos.of_uint;
    [reflexivity | ..]; cbn [digits]; eval_digit;
    solve [ exact IHd | apply digits_uint_pos ].
Qed.

(** With no digit read yet, the first digit starts the accumulator as it
    would from zero. *)
Lemma digits_none_zero (d : Decimal.uint) :
  d <> Decimal.Nil ->
  digits 10 (NilEmpty.string_of_uint d) None
  = digits 10 (NilEmpty.string_of_uint d) (Some 0).
Proof.
  destruct d; [congruence | ..]; intros _;
    simpl NilEmpty.string_of_uint; cbn [digits]; eval_digit; reflexivity.
Qed.

(** A decimal numeral never starts with the [0x] prefix. *)
Lemma radix_prefix_uint (d : Decimal.uint) :
  radix_prefix (NilEmpty.string_of_uint d) = (10, NilEmpty.string_of_uint d).
Proof.
  destruct d as [|d|d|d|d|d|d|d|d|d|d]; try reflexivity.
  destruct d; reflexivity.
Qed.

Lemma magnitude_uint (d : Decimal.uint) :
  d <> Decimal.Nil ->
  magnitude (NilEmpty.string_of_uint d) = Some (Z.of_N (Pos.of_uint d)).
Proof.
  intros Hd. unfold magnitude. rewrite radix_prefix_uint.
  rewrite digits_none_zero by exact Hd. apply digits_uint_zero.
Qed.

(** A decimal numeral starts with a digit: nothing is trimmed and no sign is
    read. *)
Lemma sign_prefix_uint (d : Decimal.uint) :
  sign_prefix (trimStart (NilEmpty.string_of_uint d))
  = (1, NilEmpty.string_of_uint d).
Proof. destruct d; reflexivity. Qed.

Lemma string_of_uint_nonnil (d : Decimal.uint) :
  d <> Decimal.Nil ->
  NilZero.string_of_uint d = NilEmpty.string_of_uint d.
Proof. destruct d; [congruence | reflexivity ..]. Qed.

(** [parseInt] reads back what [toString] printed. *)
Lemma parseInt_toString (z : Z) : parseInt (toString (Int z)) = Int z.
Proof.
  destruct z as [|p|p]; [reflexivity | |];
    pose proof (Unsigned.to_uint_nonnil p) as Hnil;
    unfold parseInt, toString; simpl Z.to_int;
    cbn [NilZero.string_of_int]; rewrite string_of_uint_nonnil by exact Hnil.
  - rewrite sign_prefix_uint, magnitude_uint, DecimalPos.Unsigned.of_to
      by exact Hnil.
    f_equal; lia.
  - change (sign_prefix (trimStart (String "-" ?s))) with (-1, s).
    cbv iota beta.
    rewrite magnitude_uint, DecimalPos.Unsigned.of_to by exact Hnil.
    f_equal; lia.
Qed.

(** The numeral of a number is never the empty string. *)
Lemma toString_truthy (n : number) : truthy_string (toString n) = true.
Proof.
  destruct n as [|[|p|p]]; try reflexivity.
  unfold toString; simpl Z.to_int; cbn [NilZero.string_of_int].
  rewrite string_of_uint_nonnil by apply Unsigned.to_uint_nonnil.
  pose proof (Unsigned.to_uint_nonnil p).
  destruct (Pos.to_uint p); [congruence | reflexivity ..].
Qed.

End JSFacts.

(** ** The access gate: proofs *)

Module GateFacts.
Import JS Gate JSFacts.

Lemma handleSubmit_locked (code : string) (now : Z) (g : Gate) :
  isLocked (mem g) = true -> handleSubmit code now g = (false, g).
Proof. intros H. unfold handleSubmit. rewrite H. reflexivity. Qed.

Lemma handleSubmit_secret (now : Z) (g : Gate) :
  isLocked (mem g) = false ->
  handleSubmit secret now g
  = (true, mkGate (mem g) (delete "secretAttempts" (localStorage g))
             (<["secretUnlocked" := "true"]> (sessionStorage g))).
Proof. intros H. unfold handleSubmit. rewrite H. reflexivity. Qed.

Lemma handleSubmit_wrong (code : string) (now : Z) (g : Gate) (n : Z) :
  isLocked (mem g) = false -> wrongCode code -> attempts (mem g) = Int n ->
  handleSubmit code now g
  = (false,
     if 5 <=? n + 1 then
       mkGate (mkLock (Int (n + 1)) true (Some (now + lockDuration)))
         (<["secretLockUntil" := toString (Int (now + lockDuration))]>
            (<["secretAttempts" := toString (Int (n + 1))]> (localStorage g)))
         (sessionStorage g)
     else
       mkGate (mkLock (Int (n + 1)) false (lockUntil (mem g)))
         (<["secretAttempts" := toString (Int (n + 1))]> (localStorage g))
         (sessionStorage g)).
Proof.
  intros Hl [Hb Hs] Ha. unfold handleSubmit.
  rewrite Hl, Hb, Ha. cbn [orb negb].
  destruct (String.eqb_spec code secret) as [->|_]; [congruence|].
  cbn [add geb]. destruct (5 <=? n + 1); reflexivity.
Qed.

Lemma submitAll_cons (c : string) (t : Z) (subs : list (string * Z))
    (g : Gate) :
  submitAll ((c, t) :: subs) g = submitAll subs (snd (handleSubmit c t g)).
Proof. reflexivity. Qed.

(** A run of wrong submissions that stays below the limit only counts. *)
Lemma submitAll_wrong_run (subs : list (string * Z)) :
  forall (g : Gate) (n : Z),
    noLockout g -> attempts (mem g) = Int n ->
    Forall (fun s => wrongCode (fst s)) subs ->
    n + Z.of_nat (length subs) <= 4 ->
    attempts (mem (submitAll subs g)) = Int (n + Z.of_nat (length subs)) /\
    noLockout (submitAll subs g) /\
    sessionStorage (submitAll subs g) = sessionStorage g /\
    (subs <> [] ->
     localStorage (submitAll subs g) !! "secretAttempts"
     = Some (toString (Int (n + Z.of_nat (length subs))))).
Proof.
  induction subs as [|[c t] subs IH]; intros g n Hno Ha Hw Hlen.
  - cbn. rewrite Z.add_0_r. repeat split; try apply Hno; congruence.
  - destruct Hno as (Hl & Hu & Hs).
    apply Forall_cons in Hw as [Hc Hw].
    cbn [length] in Hlen. rewrite Nat2Z.inj_succ in Hlen.
    rewrite submitAll_cons, (handleSubmit_wrong c t g n Hl Hc Ha).
    destruct (Z.leb_spec 5 (n + 1)) as [?|_]; [lia|].
    cbn [snd].
    match goal with |- context [submitAll subs ?g1] => set (g1' := g1) end.
    assert (Hno1 : noLockout g1').
    { repeat split; [exact Hu|]. subst g1'; cbn.
      rewrite lookup_insert_ne by discriminate. exact Hs. }
    destruct (IH g1' (n + 1) Hno1 eq_refl Hw ltac:(lia)) as (A & B & C & D).
    cbn [length]. rewrite Nat2Z.inj_succ.
    replace (n + Z.succ (Z.of_nat (length subs)))
      with (n + 1 + Z.of_nat (length subs)) by lia.
    repeat split; try assumption; try apply B.
    intros _. destruct subs as [|s subs]; [|apply D; discriminate].
    cbn. rewrite Z.add_0_r. apply lookup_insert_eq.
Qed.

(** C1.  From a state with [attempts = 0] and no lockout, a run of at most
    four wrong-code submissions leaves [attempts] equal to their number, with
    no lockout, and the counter persisted; the next wrong submission is
    refused, adds exactly one to [attempts] and persists it; when it is the
    fifth, it sets the lockout deadline to [now + 900000] ms, in the
    component and in storage. *)
Theorem wrong_submissions_count_then_lock
    (g : Gate) (subs : list (string * Z)) (code : string) (now : Z) :
  attempts (mem g) = Int 0 -> noLockout g ->
  Forall (fun s => wrongCode (fst s)) subs -> (length subs <= 4)%nat ->
  wrongCode code ->
  let k := Z.of_nat (length subs) in
  let g' := submitAll subs g in
  let r := handleSubmit code now g' in
  (attempts (mem g') = Int k /\ noLockout g' /\
   (subs <> [] ->
    localStorage g' !! "secretAttempts" = Some (toString (Int k)))) /\
  (fst r = false /\ attempts (mem (snd r)) = Int (k + 1) /\
   localStorage (snd r) !! "secretAttempts" = Some (toString (Int (k + 1)))) /\
  (k < 4 -> noLockout (snd r)) /\
  (k = 4 ->
   isLocked (mem (snd r)) = true /\
   lockUntil (mem (snd r)) = Some (now + 900000) /\
   localStorage (snd r) !! "secretLockUntil"
   = Some (toString (Int (now + 900000)))).
Proof.
  intros Ha Hno Hw Hlen Hc k g' r.
  destruct (submitAll_wrong_run subs g 0 Hno Ha Hw ltac:(lia))
    as (A & B & _ & D).
  rewrite Z.add_0_l in A, D. fold k g' in A, B, D.
  split; [auto|].
  destruct B as (Hl & Hu & Hs).
  subst r. rewrite (handleSubmit_wrong code now g' k Hl Hc A).
  destruct (Z.leb_spec 5 (k + 1)) as [Hk|Hk]; cbn [fst snd mem attempts
    isLocked lockUntil localStorage].
  - repeat split; try lia.
    + rewrite lookup_insert_ne by discriminate. apply lookup_insert_eq.
    + apply lookup_insert_eq.
  - repeat split; try lia; try assumption.
    + apply lookup_insert_eq.
    + cbn. rewrite lookup_insert_ne by discriminate. exact Hs.
Qed.

(** *** The lock cells stay in step *)

Lemma initialize_settled (now : Z) (ls ss : gmap string string) :
  settled (initialize now ls ss).
Proof.
  unfold settled, coherent, initialize.
  destruct (savedItem ls "secretLockUntil") as [s|] eqn:E.
  - destruct (parseInt s) as [|t].
    + cbn. split; [split; [discriminate|now intros []]|]. intros _.
      unfold savedItem. now rewrite lookup_delete_eq.
    + destruct (now <? t); cbn.
      * split; [split; [discriminate|reflexivity]|discriminate].
      * split; [split; [discriminate|now intros []]|]. intros _.
        unfold savedItem. now rewrite lookup_delete_eq.
  - cbn. split; [split; [discriminate|now intros []]|]. intros _. exact E.
Qed.

Lemma tick_settled (now : Z) (g : Gate) : settled g -> settled (tick now g).
Proof.
  intros Hg. unfold tick.
  destruct (locked (mem g)); [|exact Hg].
  destruct (lockUntil (mem g)) as [t|]; [|exact Hg].
  destruct (t <=? now); [|exact Hg].
  split; cbn; [split; [discriminate|now intros []]|]. intros _.
  unfold savedItem.
  rewrite lookup_delete_ne by discriminate. now rewrite lookup_delete_eq.
Qed.

Lemma handleSubmit_settled (code : string) (now : Z) (g : Gate) :
  settled g -> settled (snd (handleSubmit code now g)).
Proof.
  intros [Hc Hs]. unfold handleSubmit.
  destruct (isLocked (mem g) || negb (truthy_string (trim code))) eqn:E;
    [split; assumption|].
  apply orb_false_elim in E as [Hl _].
  destruct (String.eqb code secret).
  - split; cbn; [exact Hc|]. intros _. unfold savedItem.
    rewrite lookup_delete_ne by discriminate. apply (Hs Hl).
  - destruct (geb _ _); split; cbn.
    + split; [discriminate|reflexivity].
    + discriminate.
    + exact Hc.
    + intros _. unfold savedItem.
      rewrite lookup_insert_ne by discriminate. apply (Hs Hl).
Qed.

Lemma reachable_settled (ls0 : gmap string string) (g : Gate) :
  reachable ls0 g -> settled g.
Proof.
  induction 1;
    auto using initialize_settled, tick_settled, handleSubmit_settled.
Qed.

(** C2.  In every reachable gate state that holds a lockout deadline still
    ahead of [now], a submission of any code, the passcode included, is
    refused and changes nothing: neither the attempt count nor either
    store. *)
Theorem locked_submit_rejected
    (ls0 : gmap string string) (g : Gate) (t : Z) (code : string)
    (now : Z) :
  reachable ls0 g -> lockUntil (mem g) = Some t -> now < t ->
  handleSubmit code now g = (false, g).
Proof.
  intros Hr Hu _. apply handleSubmit_locked.
  apply (reachable_settled _ _ Hr). congruence.
Qed.

(** *** The lockout timer *)

Lemma tick_unfold (now : Z) (g : Gate) :
  tick now g
  = if locked (mem g) && expired now (mem g) then cleared g else g.
Proof.
  unfold tick, expired, cleared.
  destruct (locked (mem g)); [|reflexivity].
  destruct (lockUntil (mem g)) as [t|]; [|reflexivity].
  destruct (t <=? now); reflexivity.
Qed.

(** C6.  [tick] clears the attempt count and the lockout, in the component
    and in durable storage, exactly when the gate is locked and the deadline
    has been reached; in every other case it returns the state as it is. *)
Theorem tick_clears_exactly_when_expired (now : Z) (g : Gate) :
  (locked (mem g) && expired now (mem g) = true ->
   tick now g = cleared g /\ tick now g <> g) /\
  (locked (mem g) && expired now (mem g) = false -> tick now g = g) /\
  mem (cleared g) = mkLock (Int 0) false None /\
  localStorage (cleared g) !! "secretAttempts" = None /\
  localStorage (cleared g) !! "secretLockUntil" = None /\
  (forall k, k <> "secretAttempts" -> k <> "secretLockUntil" ->
             localStorage (cleared g) !! k = localStorage g !! k) /\
  sessionStorage (cleared g) = sessionStorage g.
Proof.
  rewrite tick_unfold.
  split; [intros Hc|split; [intros Hc|]].
  - rewrite Hc. split; [reflexivity|].
    apply andb_prop in Hc as [Hl _].
    unfold locked in Hl. apply andb_prop in Hl as [Hl _].
    intros E. apply (f_equal (fun x => isLocked (mem x))) in E.
    cbn in E. congruence.
  - now rewrite Hc.
  - cbn. repeat split.
    + apply lookup_delete_eq.
    + rewrite lookup_delete_ne by discriminate. apply lookup_delete_eq.
    + intros k H1 H2. now rewrite !lookup_delete_ne by congruence.
Qed.

(** *** The mount effect *)

Lemma savedItem_toString (ls : gmap string string) (k : string) (n : number) :
  ls !! k = Some (toString n) -> savedItem ls k = Some (toString n).
Proof. intros H. unfold savedItem. now rewrite H, toString_truthy. Qed.

(** With nothing usable in durable storage the component starts afresh. *)
Lemma initialize_nothing_saved (now : Z) (ls ss : gmap string string) :
  savedItem ls "secretLockUntil" = None ->
  savedItem ls "secretAttempts" = None ->
  initialize now ls ss = mkGate fresh ls ss.
Proof. intros H1 H2. unfold initialize. now rewrite H1, H2. Qed.

(** A live lockout is taken up, with the stored attempt count. *)
Lemma initialize_live_lock (now t n : Z) (ls ss : gmap string string) :
  ls !! "secretLockUntil" = Some (toString (Int t)) ->
  ls !! "secretAttempts" = Some (toString (Int n)) ->
  now < t ->
  initialize now ls ss = mkGate (mkLock (Int n) true (Some t)) ls ss.
Proof.
  intros H1 H2 Ht. unfold initialize.
  rewrite (savedItem_toString _ _ _ H1), parseInt_toString.
  destruct (Z.ltb_spec now t); [|lia].
  now rewrite (savedItem_toString _ _ _ H2), parseInt_toString.
Qed.

(** An expired lockout is dropped from storage, and only it: the stored
    attempt count stays in storage and is loaded into the component. *)
Lemma initialize_expired_lock (now t n : Z) (ls ss : gmap string string) :
  ls !! "secretLockUntil" = Some (toString (Int t)) ->
  ls !! "secretAttempts" = Some (toString (Int n)) ->
  t <= now ->
  initialize now ls ss
  = mkGate (mkLock (Int n) false None) (delete "secretLockUntil" ls) ss.
Proof.
  intros H1 H2 Ht. unfold initialize.
  rewrite (savedItem_toString _ _ _ H1), parseInt_toString.
  destruct (Z.ltb_spec now t); [lia|].
  assert (H3 : delete "secretLockUntil" ls !! "secretAttempts"
               = Some (toString (Int n)))
    by now rewrite lookup_delete_ne.
  now rewrite (savedItem_toString _ _ _ H3), parseInt_toString.
Qed.

(** C4, the code at the failing input.  Five wrong submissions have left an
    attempt count of 5 and a lockout deadline of 905000 in durable storage;
    the component is mounted afresh at time 1000000, after the deadline.
    The deadline is removed from storage, the attempt count is not: the
    component starts with [attempts = 5] and storage still holds the
    counter. *)
Theorem initialize_expired_lock_keeps_attempts :
  localStorage (submitAll fiveWrong firstVisit) !! "secretAttempts"
  = Some "5" /\
  localStorage (submitAll fiveWrong firstVisit) !! "secretLockUntil"
  = Some "905000" /\
  mem (initialize 1000000 (localStorage (submitAll fiveWrong firstVisit)) ∅)
  = mkLock (Int 5) false None /\
  localStorage
    (initialize 1000000 (localStorage (submitAll fiveWrong firstVisit)) ∅)
    !! "secretLockUntil" = None /\
  localStorage
    (initialize 1000000 (localStorage (submitAll fiveWrong firstVisit)) ∅)
    !! "secretAttempts" = Some "5".
Proof. vm_compute. auto 6. Qed.

(** *** Granting access *)

(** C3, as the code has it.  In every reachable unlocked state a submission
    is granted exactly when the code is the passcode, a string of twelve
    decimal digits, compared as a whole.  A grant sets the session flag and
    removes the durable attempt counter; it leaves the three state cells of
    the component as they are.  No lockout is held then, in the component or
    in storage, and the next mount starts with [attempts = 0] and no
    lockout. *)
Theorem submit_grants_iff_secret
    (ls0 : gmap string string) (g : Gate) (code : string) (now : Z) :
  reachable ls0 g -> isLocked (mem g) = false ->
  (fst (handleSubmit code now g) = true <-> code = secret) /\
  (String.length secret = 12%nat /\
   forallb isDecimalDigit (list_ascii_of_string secret) = true) /\
  (fst (handleSubmit code now g) = true ->
   mem (snd (handleSubmit code now g)) = mem g /\
   lockUntil (mem g) = None /\
   sessionStorage (snd (handleSubmit code now g)) !! "secretUnlocked"
   = Some "true" /\
   localStorage (snd (handleSubmit code now g)) !! "secretAttempts" = None /\
   (forall k, k <> "secretAttempts" ->
              localStorage (snd (handleSubmit code now g)) !! k
              = localStorage g !! k) /\
   forall now',
     mem (initialize now' (localStorage (snd (handleSubmit code now g)))
            (sessionStorage (snd (handleSubmit code now g))))
     = fresh).
Proof.
  intros Hr Hl.
  destruct (reachable_settled _ _ Hr) as [Hc Hs].
  assert (Hiff : fst (handleSubmit code now g) = true <-> code = secret).
  { split.
    - unfold handleSubmit. rewrite Hl. cbn [orb].
      destruct (negb (truthy_string (trim code))); [discriminate|].
      destruct (String.eqb_spec code secret); [auto|].
      destruct (geb _ _); discriminate.
    - intros ->. now rewrite handleSubmit_secret. }
  split; [exact Hiff|]. split; [split; reflexivity|].
  intros Hg. apply Hiff in Hg. subst code.
  rewrite handleSubmit_secret by exact Hl. cbn [snd mem localStorage
    sessionStorage].
  assert (Hu : lockUntil (mem g) = None).
  { destruct (lockUntil (mem g)) eqn:E; [|reflexivity].
    assert (isLocked (mem g) = true) by (apply Hc; congruence). congruence. }
  repeat split; auto.
  - apply lookup_insert_eq.
  - apply lookup_delete_eq.
  - intros k Hk. now rewrite lookup_delete_ne.
  - intros now'. rewrite initialize_nothing_saved; [reflexivity| |].
    + unfold savedItem. rewrite lookup_delete_ne by discriminate.
      apply (Hs Hl).
    + unfold savedItem. now rewrite lookup_delete_eq.
Qed.

(** *** The scenario, step by step *)

Lemma wrongGuess_wrong : wrongCode wrongGuess.
Proof. split; [reflexivity|discriminate]. Qed.

Lemma reachable_submitAll (ls0 : gmap string string)
    (subs : list (string * Z)) :
  forall g, reachable ls0 g -> reachable ls0 (submitAll subs g).
Proof.
  induction subs as [|[c t] subs IH]; intros g Hg; [exact Hg|].
  rewrite submitAll_cons. apply IH. now apply reach_submit.
Qed.

Lemma firstVisit_reachable : reachable ∅ firstVisit.
Proof. apply reach_mount. Qed.

Lemma wrong_submissions_count_then_lock_scenario :
  attempts (mem (submitAll fourWrong firstVisit)) = Int 4 /\
  noLockout (submitAll fourWrong firstVisit) /\
  fst (handleSubmit wrongGuess 5000 (submitAll fourWrong firstVisit)) = false /\
  lockUntil
    (mem (snd (handleSubmit wrongGuess 5000 (submitAll fourWrong firstVisit))))
  = Some 905000.
Proof.
  assert (Hno : noLockout firstVisit) by (repeat split).
  assert (Hw : Forall (fun s => wrongCode (fst s)) fourWrong)
    by (repeat constructor; discriminate).
  destruct (wrong_submissions_count_then_lock firstVisit fourWrong wrongGuess
              5000 eq_refl Hno Hw ltac:(cbn; lia) wrongGuess_wrong)
    as ((A & B & _) & (C & _) & _ & D).
  destruct (D eq_refl) as (_ & E & _).
  repeat split; solve [exact A | apply B | exact C | exact E].
Defined.

Lemma locked_submit_rejected_scenario :
  handleSubmit secret 6000 (submitAll fiveWrong firstVisit)
  = (false, submitAll fiveWrong firstVisit).
Proof.
  apply (locked_submit_rejected ∅ _ 905000).
  - apply reachable_submitAll, firstVisit_reachable.
  - vm_compute. reflexivity.
  - lia.
Defined.

(** C3 as stated fails on the code: after one wrong submission the passcode
    is granted, and the attempt count of the component is still 1. *)
Lemma grant_leaves_attempts_in_memory :
  exists g now,
    reachable ∅ g /\ isLocked (mem g) = false /\
    fst (handleSubmit secret now g) = true /\
    attempts (mem (snd (handleSubmit secret now g))) = Int 1 /\
    attempts (mem (snd (handleSubmit secret now g))) <> Int 0.
Proof.
  exists (submitAll [(wrongGuess, 1000)] firstVisit), 2000.
  split; [apply reachable_submitAll, firstVisit_reachable|].
  vm_compute. repeat split; congruence.
Qed.

Lemma submit_grants_iff_secret_scenario :
  fst (handleSubmit secret 2000 (submitAll [(wrongGuess, 1000)] firstVisit))
  = true /\
  localStorage
    (snd (handleSubmit secret 2000
            (submitAll [(wrongGuess, 1000)] firstVisit)))
    !! "secretAttempts" = None.
Proof.
  destruct (submit_grants_iff_secret ∅
              (submitAll [(wrongGuess, 1000)] firstVisit) secret 2000)
    as (A & _ & B).
  - apply reachable_submitAll, firstVisit_reachable.
  - reflexivity.
  - split; [now apply A|]. apply B. now apply A.
Defined.

(** C5, the code at the failing input.  Five wrong submissions lock the
    gate until 905000; the lock screen is left before the deadline and
    mounted again at 1000000, after it, where it starts unlocked with
    [attempts = 5]; one more wrong submission takes [attempts] to 6, above
    [maxAttempts], and locks the gate again. *)
Theorem attempts_exceed_maxAttempts :
  reachable ∅
    (snd (handleSubmit wrongGuess 1001000
            (initialize 1000000
               (localStorage (submitAll fiveWrong firstVisit))
               (sessionStorage (submitAll fiveWrong firstVisit))))) /\
  mem (submitAll fiveWrong firstVisit) = mkLock (Int 5) true (Some 905000) /\
  mem (initialize 1000000
         (localStorage (submitAll fiveWrong firstVisit))
         (sessionStorage (submitAll fiveWrong firstVisit)))
  = mkLock (Int 5) false None /\
  mem (snd (handleSubmit wrongGuess 1001000
              (initialize 1000000
                 (localStorage (submitAll fiveWrong firstVisit))
                 (sessionStorage (submitAll fiveWrong firstVisit)))))
  = mkLock (Int 6) true (Some 1901000) /\
  maxAttempts < 6.
Proof.
  split.
  - apply reach_submit, reach_remount, reachable_submitAll,
      firstVisit_reachable.
  - vm_compute. auto.
Qed.

End GateFacts.

(** ** The application shell: proofs *)

Module AppFacts.
Import JS Gate App.

Lemma nav_render (now : Z) (a : App) : nav (render now a) = nav a.
Proof.
  unfold render. destruct (showsLock a); [destruct (lock a)|]; reflexivity.
Qed.

Lemma secretUnlocked_render (now : Z) (a : App) :
  secretUnlocked (render now a) = secretUnlocked a.
Proof.
  unfold render. destruct (showsLock a); [destruct (lock a)|]; reflexivity.
Qed.

Lemma showsLock_render (now : Z) (a : App) :
  showsLock (render now a) = showsLock a.
Proof. unfold showsLock. now rewrite nav_render, secretUnlocked_render. Qed.

Lemma rendered_render (now : Z) (a : App) : rendered (render now a).
Proof.
  unfold rendered. rewrite showsLock_render. unfold render.
  destruct (showsLock a) eqn:E.
  - destruct (lock a) eqn:L; cbn; [rewrite L|]; split; congruence.
  - cbn. split; congruence.
Qed.

Lemma render_rendered (now : Z) (a : App) : rendered a -> render now a = a.
Proof.
  unfold rendered, render. intros [H1 H2].
  destruct (showsLock a).
  - destruct (lock a); [reflexivity|]. now specialize (H2 eq_refl).
  - destruct a as [n u [l|] ls ss]; cbn in *; [|reflexivity].
    assert (false = true) by (apply H1; discriminate). discriminate.
Qed.

Lemma nav_load (now : Z) (ls ss : gmap string string) :
  nav (load now ls ss) = mkNav "home" false false [].
Proof. unfold load. now rewrite nav_render. Qed.

Lemma reachable_rendered (ls0 ss0 : gmap string string) (a : App) :
  App.reachable ls0 ss0 a -> rendered a.
Proof. destruct 1; apply rendered_render. Qed.

(** [handleNavigation] never touches [currentPage] itself. *)
Lemma currentPage_handleNavigation (page : string) (now : Z) (n : Nav) :
  currentPage (handleNavigation page now n) = currentPage n.
Proof. unfold handleNavigation. destruct (String.eqb _ _); reflexivity. Qed.

(** C7.  [handleNavigation] does nothing when the target is the current
    page: the state is unchanged and no callback is scheduled.  Otherwise it
    sets [isTransitioning] at once, leaves [currentPage] as it is and
    schedules one callback due 350 ms later; that callback does not run
    before it is due, and when it runs it sets [currentPage] to the target
    and clears [isTransitioning]. *)
Theorem navigate_noop_or_timed_transition
    (target : string) (now : Z) (n : Nav) :
  (target = currentPage n -> handleNavigation target now n = n) /\
  (target <> currentPage n ->
   isTransitioning (handleNavigation target now n) = true /\
   currentPage (handleNavigation target now n) = currentPage n /\
   isMobileMenuOpen (handleNavigation target now n) = isMobileMenuOpen n /\
   pending (handleNavigation target now n)
   = (pending n ++ [(now + 350, target)])%list) /\
  (forall (n' : Nav) (rest : list (Z * string)) (t : Z),
      pending n' = (now + 350, target) :: rest ->
      (t < now + 350 -> runTimer t n' = None) /\
      (now + 350 <= t ->
       exists n'', runTimer t n' = Some n'' /\
                   currentPage n'' = target /\
                   isTransitioning n'' = false /\
                   pending n'' = rest)).
Proof.
  split; [|split].
  - intros ->. unfold handleNavigation. now rewrite String.eqb_refl.
  - intros Hne. unfold handleNavigation.
    destruct (String.eqb_spec (currentPage n) target); [congruence|].
    cbn. auto.
  - intros n' rest t Hp. unfold runTimer. rewrite Hp. split; intros Ht.
    + destruct (Z.leb_spec (now + 350) t); [lia|reflexivity].
    + destruct (Z.leb_spec (now + 350) t); [|lia].
      eexists; split; [reflexivity|]. cbn. auto.
Qed.

(** *** Who changes [currentPage] *)

Lemma lock_mounted_page (a : App) (l : LockState) :
  rendered a -> lock a = Some l ->
  currentPage (nav a) = "secret-garden" /\ secretUnlocked a = false.
Proof.
  intros [H _] L. assert (S : showsLock a = true) by (apply H; congruence).
  unfold showsLock in S. apply andb_prop in S as [S1 S2].
  apply String.eqb_eq in S1. apply negb_true_iff in S2. auto.
Qed.

(** The navigation cells after the handler of a form submission on the lock
    screen: [handleSecretUnlock] sets the page the lock screen is already
    on. *)
Lemma nav_handle_SubmitCode (code : string) (now : Z) (a : App) :
  rendered a ->
  nav (handle (SubmitCode code) now a) = nav a.
Proof.
  intros Hr. cbn [handle]. destruct (lock a) as [l|] eqn:L; [|reflexivity].
  destruct (lock_mounted_page a l Hr L) as [Hp _].
  destruct (handleSubmit code now _) as [[|] g]; [|reflexivity].
  cbn. destruct (nav a) as [p tr m q]; cbn in *. now subst p.
Qed.

(** C8, as the code has it.  In every reachable state, a step that changes
    [currentPage] is one of three: a navigation callback that has come due
    and runs, which also clears [isTransitioning]; a page load, which starts
    at ['home'] with [isTransitioning] clear; or the header's secret-garden
    entry while the garden is locked, which sets the page at once and leaves
    [isTransitioning] as it is.  So [currentPage] changes while
    [isTransitioning] stays true only by that direct route. *)
Theorem page_changes_by_timer_load_or_direct_route
    (ls0 ss0 : gmap string string) (a : App) (e : event) (now : Z) :
  App.reachable ls0 ss0 a ->
  currentPage (nav (step e now a)) <> currentPage (nav a) ->
  ((e = Timeout /\
    (exists due rest,
        pending (nav a) = (due, currentPage (nav (step e now a))) :: rest /\
        due <= now) /\
    isTransitioning (nav (step e now a)) = false)
   \/ ((e = Reload \/ e = ReturnToSurface) /\
       nav (step e now a) = mkNav "home" false false [])
   \/ (directRoute e a /\
       currentPage (nav (step e now a)) = "secret-garden" /\
       isTransitioning (nav (step e now a)) = isTransitioning (nav a)))
  /\ (isTransitioning (nav a) = true ->
      isTransitioning (nav (step e now a)) = true ->
      directRoute e a).
Proof.
  intros Hreach Hne.
  pose proof (reachable_rendered _ _ _ Hreach) as Hr.
  assert (Hcases :
    (e = Timeout /\
     (exists due rest,
         pending (nav a) = (due, currentPage (nav (step e now a))) :: rest /\
         due <= now) /\
     isTransitioning (nav (step e now a)) = false)
    \/ ((e = Reload \/ e = ReturnToSurface) /\
        nav (step e now a) = mkNav "home" false false [])
    \/ (directRoute e a /\
        currentPage (nav (step e now a)) = "secret-garden" /\
        isTransitioning (nav (step e now a)) = isTransitioning (nav a))).
  { unfold step in *. rewrite nav_render in *.
    destruct e as [page| | |code| | |].
    - exfalso. apply Hne. cbn. apply currentPage_handleNavigation.
    - cbn [handle] in *. destruct (secretUnlocked a) eqn:U.
      + exfalso. apply Hne. cbn. apply currentPage_handleNavigation.
      + right; right. repeat split; auto.
    - left. cbn [handle] in *. unfold runTimer in *.
      destruct (pending (nav a)) as [|[due page] rest] eqn:P;
        [now exfalso|].
      destruct (Z.leb_spec due now); [|now exfalso].
      cbn. split; [reflexivity|]. split; [|reflexivity]. eauto.
    - exfalso. apply Hne. now rewrite nav_handle_SubmitCode.
    - exfalso. apply Hne. cbn. now destruct (lock a).
    - cbn [handle] in *. destruct (showsGarden a).
      + right; left. split; [auto|]. apply nav_load.
      + now exfalso.
    - right; left. split; [auto|]. apply nav_load. }
  split; [exact Hcases|].
  intros _ Htr.
  destruct Hcases as [(_ & _ & F)|[(_ & F)|(D & _)]];
    [congruence| |exact D].
  rewrite F in Htr. discriminate.
Qed.

(** *** The lock screen is the gate *)

Lemma gate_eta (g : Gate) :
  mkGate (mem g) (localStorage g) (sessionStorage g) = g.
Proof. now destruct g. Qed.

(** Dropping the lock cells keeps the link. *)
Lemma linked_unmount (ls0 : gmap string string) (a : App) (n : Nav)
    (u : bool) (ss : gmap string string) :
  linked ls0 a -> linked ls0 (mkApp n u None (local a) ss).
Proof.
  unfold linked. cbn. destruct (lock a) as [l|]; [|auto].
  intros H. right. eauto.
Qed.

Lemma linked_render (ls0 : gmap string string) (now : Z) (a : App) :
  linked ls0 a -> linked ls0 (render now a).
Proof.
  intros H. unfold render. destruct (showsLock a).
  - destruct (lock a) as [l|] eqn:L; [exact H|].
    unfold linked in *. rewrite L in H. cbn. rewrite gate_eta.
    destruct H as [->|(g & Hg & <-)]; [apply reach_mount|].
    now apply reach_remount.
  - now apply linked_unmount.
Qed.

Lemma linked_load (ls0 : gmap string string) (now : Z) (a : App)
    (ss : gmap string string) :
  linked ls0 a -> linked ls0 (load now (local a) ss).
Proof. intros H. unfold load. now apply linked_render, linked_unmount. Qed.

Lemma linked_withNav (ls0 : gmap string string) (n : Nav) (a : App) :
  linked ls0 a -> linked ls0 (withNav n a).
Proof. exact (fun H => H). Qed.

Lemma linked_handle (ls0 : gmap string string) (e : event) (now : Z)
    (a : App) :
  linked ls0 a -> linked ls0 (handle e now a).
Proof.
  intros H. destruct e as [page| | |code| | |]; cbn [handle].
  - now apply linked_withNav.
  - destruct (secretUnlocked a); now apply linked_withNav.
  - destruct (runTimer now (nav a)); [now apply linked_withNav|exact H].
  - destruct (lock a) as [l|] eqn:L; [|exact H].
    unfold linked in H. rewrite L in H.
    pose proof (Gate.reach_submit ls0 code now _ H) as Hs.
    destruct (handleSubmit code now _) as [granted g]. cbn [snd] in Hs.
    destruct granted; unfold linked; cbn; now rewrite gate_eta.
  - destruct (lock a) as [l|] eqn:L; [|exact H].
    unfold linked in H. rewrite L in H.
    unfold linked. cbn. rewrite gate_eta. now apply reach_tick.
  - destruct (showsGarden a); [now apply linked_load|exact H].
  - now apply linked_load.
Qed.

Lemma reachable_linked (ls0 ss0 : gmap string string) (a : App) :
  App.reachable ls0 ss0 a -> linked ls0 a.
Proof.
  induction 1 as [now|e now a _ IH].
  - unfold load. apply linked_render. unfold linked. cbn. auto.
  - unfold step. now apply linked_render, linked_handle.
Qed.

(** The mounted lock screen of a reachable application is a reachable gate
    state. *)
Lemma reachable_lock (ls0 ss0 : gmap string string) (a : App)
    (l : LockState) :
  App.reachable ls0 ss0 a -> lock a = Some l ->
  Gate.reachable ls0 (mkGate l (local a) (session a)).
Proof.
  intros H L. apply reachable_linked in H. unfold linked in H.
  now rewrite L in H.
Qed.

(** In the application, a submission while a lockout deadline is held
    changes nothing at all. *)
Lemma locked_submit_changes_nothing
    (ls0 ss0 : gmap string string) (a : App) (l : LockState) (t : Z)
    (code : string) (now : Z) :
  App.reachable ls0 ss0 a -> lock a = Some l -> lockUntil l = Some t ->
  step (SubmitCode code) now a = a.
Proof.
  intros H L Hu.
  pose proof (reachable_lock _ _ _ _ H L) as Hg.
  destruct (GateFacts.reachable_settled _ _ Hg) as [Hc _].
  assert (Hl : isLocked l = true) by (apply Hc; cbn; congruence).
  unfold step. cbn [handle]. rewrite L.
  rewrite GateFacts.handleSubmit_locked by exact Hl.
  replace (withGate (mkGate l (local a) (session a)) a) with a
    by (destruct a; cbn in *; now subst).
  apply render_rendered, (reachable_rendered _ _ _ H).
Qed.

(** C8 as stated fails on the code: while the transition to ['about'] is
    under way, the secret-garden entry of the header sets [currentPage] at
    once; [isTransitioning] is true before and after, and the callback of
    the transition is still pending. *)
Lemma secret_entry_changes_page_mid_transition :
  App.reachable ∅ ∅ leavingHome /\
  isTransitioning (nav leavingHome) = true /\
  currentPage (nav leavingHome) = "home" /\
  isTransitioning (nav (step ClickSecretGarden 100 leavingHome)) = true /\
  currentPage (nav (step ClickSecretGarden 100 leavingHome))
  = "secret-garden" /\
  pending (nav (step ClickSecretGarden 100 leavingHome)) = [(350, "about")].
Proof.
  split; [apply reach_step, reach_load|]. vm_compute. auto.
Qed.

Lemma page_changes_by_timer_load_or_direct_route_scenario :
  directRoute ClickSecretGarden leavingHome.
Proof.
  apply (page_changes_by_timer_load_or_direct_route ∅ ∅ leavingHome
           ClickSecretGarden 100).
  - apply reach_step, reach_load.
  - vm_compute. discriminate.
  - reflexivity.
  - reflexivity.
Defined.

(** *** The lock screen inside the application *)

(** A granted submission unmounts the lock screen: [secretUnlocked] is set,
    the page stays ['secret-garden'], the garden is shown, and the state
    cells of the lock are gone. *)
Lemma grant_unmounts_lock
    (ls0 ss0 : gmap string string) (a : App) (l : LockState) (now : Z) :
  App.reachable ls0 ss0 a -> lock a = Some l -> isLocked l = false ->
  lock (step (SubmitCode secret) now a) = None /\
  secretUnlocked (step (SubmitCode secret) now a) = true /\
  showsGarden (step (SubmitCode secret) now a) = true /\
  session (step (SubmitCode secret) now a) !! "secretUnlocked" = Some "true" /\
  local (step (SubmitCode secret) now a) !! "secretAttempts" = None.
Proof.
  intros Hreach L Hl.
  destruct (lock_mounted_page a l (reachable_rendered _ _ _ Hreach) L)
    as [Hp _].
  unfold step. cbn [handle]. rewrite L.
  rewrite GateFacts.handleSubmit_secret by exact Hl.
  unfold render, showsLock, showsGarden. cbn.
  repeat split.
  - apply lookup_insert_eq.
  - apply lookup_delete_eq.
Qed.

(** The failing run of C4 and C5 in the application: five wrong codes lock
    the gate until 905000; the visitor goes back to the home page, which
    unmounts the lock screen, and returns to it after the deadline, where
    one more wrong code takes [attempts] to 6. *)
Lemma attempts_exceed_maxAttempts_in_app :
  lock (run [(ClickSecretGarden, 0);
             (SubmitCode wrongGuess, 1000); (SubmitCode wrongGuess, 2000);
             (SubmitCode wrongGuess, 3000); (SubmitCode wrongGuess, 4000);
             (SubmitCode wrongGuess, 5000);
             (Navigate "home", 6000); (Timeout, 6350)] firstLoad)
  = None /\
  lock (run [(ClickSecretGarden, 0);
             (SubmitCode wrongGuess, 1000); (SubmitCode wrongGuess, 2000);
             (SubmitCode wrongGuess, 3000); (SubmitCode wrongGuess, 4000);
             (SubmitCode wrongGuess, 5000);
             (Navigate "home", 6000); (Timeout, 6350);
             (ClickSecretGarden, 1000000)] firstLoad)
  = Some (mkLock (Int 5) false None) /\
  lock (run [(ClickSecretGarden, 0);
             (SubmitCode wrongGuess, 1000); (SubmitCode wrongGuess, 2000);
             (SubmitCode wrongGuess, 3000); (SubmitCode wrongGuess, 4000);
             (SubmitCode wrongGuess, 5000);
             (Navigate "home", 6000); (Timeout, 6350);
             (ClickSecretGarden, 1000000);
             (SubmitCode wrongGuess, 1001000)] firstLoad)
  = Some (mkLock (Int 6) true (Some 1901000)).
Proof. vm_compute. auto. Qed.

End AppFacts.

(** ** The suggestion form: proofs *)

Module FormFacts.
Import JS Form.

Local Notation "s1 +++ s2" := (String.append s1 s2)
  (at level 60, right associativity).
Local Arguments String.append !_ _ / : simpl nomatch.

Lemma append_empty_inv (s1 s2 : string) :
  s1 +++ s2 = EmptyString -> s1 = EmptyString /\ s2 = EmptyString.
Proof. destruct s1; cbn; [auto|discriminate]. Qed.

Lemma append_assoc (s1 s2 s3 : string) :
  (s1 +++ s2) +++ s3 = s1 +++ s2 +++ s3.
Proof. induction s1; cbn; congruence. Qed.

(** *** The matcher computes the language of the pattern *)

Lemma matches_never_inv (s : string) : ~ matches Never s.
Proof. intros H; inversion H. Qed.

Lemma matches_empty_inv (s : string) : matches Empty s -> s = EmptyString.
Proof. intros H; inversion H; reflexivity. Qed.

Lemma matches_class_inv (p : ascii -> bool) (s : string) :
  matches (Class p) s -> exists c, s = String c EmptyString /\ p c = true.
Proof. intros H; inversion H; subst; eauto. Qed.

Lemma matches_cat_inv (r1 r2 : regex) (s : string) :
  matches (Cat r1 r2) s ->
  exists s1 s2, s = s1 +++ s2 /\ matches r1 s1 /\ matches r2 s2.
Proof. intros H; inversion H; subst; eauto. Qed.

Lemma matches_alt_inv (r1 r2 : regex) (s : string) :
  matches (Alt r1 r2) s -> matches r1 s \/ matches r2 s.
Proof. intros H; inversion H; subst; auto. Qed.

Lemma nullable_spec (r : regex) :
  nullable r = true <-> matches r EmptyString.
Proof.
  induction r as [| |p|r1 IH1 r2 IH2|r1 IH1 r2 IH2|r IH]; cbn.
  - split; [discriminate|]. intros H. now apply matches_never_inv in H.
  - split; [constructor|reflexivity].
  - split; [discriminate|].
    intros H. apply matches_class_inv in H as (c & E & _). discriminate.
  - rewrite andb_true_iff, IH1, IH2. split.
    + intros [H1 H2]. apply (m_cat _ _ EmptyString EmptyString); assumption.
    + intros H. apply matches_cat_inv in H as (s1 & s2 & E & H1 & H2).
      symmetry in E. apply append_empty_inv in E as [-> ->]. auto.
  - rewrite orb_true_iff, IH1, IH2. split.
    + intros [H|H]; [apply m_alt_l|apply m_alt_r]; exact H.
    + apply matches_alt_inv.
  - split; [constructor|reflexivity].
Qed.

(** A non-empty match of [r*] starts with a non-empty match of [r]. *)
Lemma star_cons_inv (r : regex) (c : ascii) (s : string) :
  matches (Star r) (String c s) ->
  exists s1 s2,
    s = s1 +++ s2 /\ matches r (String c s1) /\ matches (Star r) s2.
Proof.
  intros H. remember (Star r) as r' eqn:Er.
  remember (String c s) as w eqn:Ew. revert s Ew.
  induction H as [| | | | | |r0 s1 s2 H1 _ H2 IH2]; intros w' Ew;
    try discriminate.
  injection Er as ->.
  destruct s1 as [|c1 s1]; cbn in Ew.
  - apply IH2; [reflexivity|exact Ew].
  - injection Ew as -> <-. eauto.
Qed.

Lemma deriv_cat_sound (r1 r2 : regex) (c : ascii) (s : string) :
  (forall s1, matches (deriv c r1) s1 -> matches r1 (String c s1)) ->
  matches (Cat (deriv c r1) r2) s -> matches (Cat r1 r2) (String c s).
Proof.
  intros IH H. apply matches_cat_inv in H as (s1 & s2 & -> & H1 & H2).
  apply (m_cat _ _ (String c s1) s2); [now apply IH|assumption].
Qed.

Lemma deriv_spec (r : regex) :
  forall (c : ascii) (s : string),
    matches (deriv c r) s <-> matches r (String c s).
Proof.
  induction r as [| |p|r1 IH1 r2 IH2|r1 IH1 r2 IH2|r IH]; intros c s; cbn.
  - split; intros H; now apply matches_never_inv in H.
  - split; intros H.
    + now apply matches_never_inv in H.
    + apply matches_empty_inv in H. discriminate.
  - split; intros H.
    + destruct (p c) eqn:Ep; [|now apply matches_never_inv in H].
      apply matches_empty_inv in H as ->. now constructor.
    + apply matches_class_inv in H as (c' & E & Hp).
      injection E as -> ->. rewrite Hp. constructor.
  - split.
    + intros H.
      destruct (nullable r1) eqn:N;
        [|apply deriv_cat_sound; [apply IH1|exact H]].
      apply matches_alt_inv in H as [H|H];
        [apply deriv_cat_sound; [apply IH1|exact H]|].
      apply (m_cat _ _ EmptyString (String c s)).
      * now apply nullable_spec.
      * now apply IH2.
    + intros H. apply matches_cat_inv in H as (s1 & s2 & E & H1 & H2).
      destruct s1 as [|c1 s1]; cbn in E.
      * subst s2. apply nullable_spec in H1. rewrite H1.
        apply m_alt_r. now apply IH2.
      * injection E as <- ->.
        assert (Hc : matches (Cat (deriv c r1) r2) (s1 +++ s2))
          by (constructor; [now apply IH1|assumption]).
        destruct (nullable r1); [now apply m_alt_l|exact Hc].
  - split; intros H; apply matches_alt_inv in H as [H|H].
    + apply m_alt_l. now apply IH1.
    + apply m_alt_r. now apply IH2.
    + apply m_alt_l. now apply IH1.
    + apply m_alt_r. now apply IH2.
  - split.
    + intros H. apply matches_cat_inv in H as (s1 & s2 & -> & H1 & H2).
      apply IH in H1. apply (m_star_cons _ (String c s1) s2); assumption.
    + intros H. apply star_cons_inv in H as (s1 & s2 & -> & H1 & H2).
      constructor; [now apply IH|assumption].
Qed.

Lemma matchAtStart_spec (s : string) :
  forall r : regex,
    matchAtStart r s = true <-> exists u v, s = u +++ v /\ matches r u.
Proof.
  induction s as [|c s IH]; intros r; cbn; rewrite orb_true_iff.
  - split.
    + intros [H|H]; [|discriminate]. exists EmptyString, EmptyString.
      split; [reflexivity|]. now apply nullable_spec.
    + intros (u & v & E & H). left. symmetry in E.
      apply append_empty_inv in E as [-> _]. now apply nullable_spec.
  - rewrite IH, nullable_spec. split.
    + intros [H|(u & v & -> & H)].
      * exists EmptyString, (String c s). auto.
      * exists (String c u), v. split; [reflexivity|]. now apply deriv_spec.
    + intros (u & v & E & H). destruct u as [|c1 u]; [now left|right].
      cbn in E. injection E as <- ->. exists u, v.
      split; [reflexivity|]. now apply deriv_spec.
Qed.

Lemma test_spec (r : regex) (s : string) :
  test r s = true <->
  exists pre u post, s = pre +++ u +++ post /\ matches r u.
Proof.
  induction s as [|c s IH].
  - change (test r EmptyString) with (matchAtStart r EmptyString || false).
    rewrite orb_false_r, matchAtStart_spec. split.
    + intros (u & v & E & H). exists EmptyString, u, v. auto.
    + intros (pre & u & post & E & H).
      destruct pre; cbn in E; [|discriminate]. eauto.
  - change (test r (String c s))
      with (matchAtStart r (String c s) || test r s).
    rewrite orb_true_iff, matchAtStart_spec, IH. split.
    + intros [(u & v & E & H)|(pre & u & post & -> & H)].
      * exists EmptyString, u, v. auto.
      * exists (String c pre), u, post. auto.
    + intros (pre & u & post & E & H). destruct pre as [|c1 pre]; cbn in E.
      * left. eauto.
      * right. injection E as <- ->. eauto.
Qed.

(** *** The shape the pattern describes *)

Lemma matches_star_class (p : ascii -> bool) (s : string) :
  matches (Star (Class p)) s <-> allChars p s = true.
Proof.
  induction s as [|c s IH]; cbn.
  - split; [reflexivity|constructor].
  - rewrite andb_true_iff, <- IH. split.
    + intros H. apply star_cons_inv in H as (s1 & s2 & -> & H1 & H2).
      apply matches_class_inv in H1 as (c' & E & Hp).
      injection E as -> ->. auto.
    + intros [Hp H].
      apply (m_star_cons _ (String c EmptyString) s); [now constructor|auto].
Qed.

Lemma matches_plus_class (p : ascii -> bool) (s : string) :
  matches (Plus (Class p)) s <-> s <> EmptyString /\ allChars p s = true.
Proof.
  unfold Plus. split.
  - intros H. apply matches_cat_inv in H as (s1 & s2 & -> & H1 & H2).
    apply matches_class_inv in H1 as (c & -> & Hp).
    apply matches_star_class in H2. cbn. rewrite Hp, H2. now split.
  - intros [Hne H]. destruct s as [|c s]; [congruence|].
    cbn in H. apply andb_prop in H as [Hp H].
    apply (m_cat _ _ (String c EmptyString) s);
      [now constructor|now apply matches_star_class].
Qed.

Lemma matches_lit (a : ascii) (s : string) :
  matches (lit a) s <-> s = String a EmptyString.
Proof.
  unfold lit. split.
  - intros H. apply matches_class_inv in H as (c & -> & E).
    apply Ascii.eqb_eq in E. now subst.
  - intros ->. constructor. apply Ascii.eqb_refl.
Qed.

Lemma matches_emailPattern (u : string) :
  matches emailPattern u <->
  exists l d t,
    run l /\ run d /\ run t /\
    u = l +++ String "@" (d +++ String "." t).
Proof.
  unfold emailPattern, run. split.
  - intros H.
    apply matches_cat_inv in H as (l & u1 & -> & Hl & H).
    apply matches_cat_inv in H as (a & u2 & -> & Ha & H).
    apply matches_cat_inv in H as (d & u3 & -> & Hd & H).
    apply matches_cat_inv in H as (b & t & -> & Hb & Ht).
    apply matches_lit in Ha as ->. apply matches_lit in Hb as ->.
    apply matches_plus_class in Hl, Hd, Ht.
    exists l, d, t. auto.
  - intros (l & d & t & Hl & Hd & Ht & ->).
    apply matches_plus_class in Hl, Hd, Ht.
    apply m_cat; [exact Hl|].
    apply (m_cat _ _ (String "@" EmptyString)); [now apply matches_lit|].
    apply m_cat; [exact Hd|].
    apply (m_cat _ _ (String "." EmptyString)); [now apply matches_lit|].
    exact Ht.
Qed.

Lemma shape_assoc (pre l d t post : string) :
  pre +++ (l +++ String "@" (d +++ String "." t)) +++ post
  = pre +++ l +++ String "@" (d +++ String "." (t +++ post)).
Proof.
  f_equal. rewrite append_assoc. cbn. do 2 f_equal.
  rewrite append_assoc. reflexivity.
Qed.

(** The test of [validateForm] succeeds exactly on the strings that contain
    the shape. *)
Lemma test_emailPattern (s : string) :
  test emailPattern s = true <-> emailShape s.
Proof.
  rewrite test_spec. unfold emailShape. split.
  - intros (pre & u & post & -> & H).
    apply matches_emailPattern in H as (l & d & t & Hl & Hd & Ht & ->).
    exists pre, l, d, t, post. auto using shape_assoc.
  - intros (pre & l & d & t & post & Hl & Hd & Ht & ->).
    exists pre, (l +++ String "@" (d +++ String "." t)), post. split.
    + symmetry. apply shape_assoc.
    + apply matches_emailPattern. eauto 10.
Qed.

(** *** Trimming *)

Lemma trimStart_empty (s : string) :
  trimStart s = EmptyString <-> allChars is_space s = true.
Proof.
  induction s as [|c s IH]; cbn; [tauto|].
  destruct (is_space c); cbn; [exact IH|]. split; discriminate.
Qed.

Lemma revs_empty (s : string) :
  forall acc, revs acc s = EmptyString <-> acc = EmptyString /\ s = EmptyString.
Proof.
  induction s as [|c s IH]; intros acc; cbn; [tauto|].
  rewrite IH. split; intros [? ?]; discriminate.
Qed.

Lemma allChars_revs (p : ascii -> bool) (s : string) :
  forall acc, allChars p (revs acc s) = allChars p acc && allChars p s.
Proof.
  induction s as [|c s IH]; intros acc; cbn; [now rewrite andb_true_r|].
  rewrite IH. cbn. destruct (p c), (allChars p acc); reflexivity.
Qed.

(** What [trimStart] leaves is empty or starts with a visible character. *)
Lemma trimStart_head (s : string) :
  trimStart s = EmptyString \/
  exists c s', trimStart s = String c s' /\ is_space c = false.
Proof.
  induction s as [|c s IH]; cbn; [auto|].
  destruct (is_space c) eqn:E; [exact IH|eauto].
Qed.

(** A string is empty after trimming exactly when it holds white space
    only. *)
Lemma trim_empty (s : string) :
  trim s = EmptyString <-> allChars is_space s = true.
Proof.
  unfold trim, trimEnd. rewrite revs_empty, trimStart_empty, allChars_revs.
  cbn [allChars andb]. rewrite <- (trimStart_empty s).
  destruct (trimStart_head s) as [E|(c & s' & E & Hc)]; rewrite E.
  - cbn. tauto.
  - cbn. rewrite Hc. cbn. split; [intros [_ ?]|]; discriminate.
Qed.

Lemma truthy_string_false (s : string) :
  truthy_string s = false <-> s = EmptyString.
Proof. destruct s; cbn; split; congruence. Qed.

(** C9.  [validateForm] reports an error on [title] exactly when the title is
    empty after trimming, that is, holds white space only; an error on
    [email] exactly when the email is not empty and does not contain the
    shape [local@domain.tld]; the error object is empty, and the result
    [true], exactly when the form is valid.  The three forms of the
    specification give an error on [title] only, on [email] only, and
    none. *)
Theorem validateForm_errors (f : SuggestionForm) :
  (is_Some (fst (validateForm f) !! "title") <->
   trim (title f) = EmptyString) /\
  (trim (title f) = EmptyString <-> allChars is_space (title f) = true) /\
  (is_Some (fst (validateForm f) !! "email") <->
   email f <> EmptyString /\ ~ emailShape (email f)) /\
  (forall k,
      k <> "title" -> k <> "email" -> fst (validateForm f) !! k = None) /\
  (fst (validateForm f) = ∅ <-> valid f) /\
  (snd (validateForm f) = true <-> fst (validateForm f) = ∅) /\
  fst (validateForm (mkForm "" ""))
  = {["title" := "Please enter your dive suggestion"]} /\
  fst (validateForm (mkForm "x" "bad"))
  = {["email" := "Please enter a valid email address"]} /\
  fst (validateForm (mkForm "x" "a@b.co")) = ∅.
Proof.
  assert (Ht : negb (truthy_string (trim (title f))) = true <->
               trim (title f) = EmptyString)
    by (rewrite negb_true_iff; apply truthy_string_false).
  assert (He : truthy_string (email f) && negb (test emailPattern (email f))
               = true <-> email f <> EmptyString /\ ~ emailShape (email f)).
  { rewrite andb_true_iff, negb_true_iff, <- test_emailPattern.
    rewrite <- not_true_iff_false.
    destruct (email f); cbn; intuition congruence. }
  unfold valid.
  repeat match goal with |- _ /\ _ => split end; try reflexivity.
  - rewrite <- Ht. unfold validateForm. cbn [fst].
    destruct (negb (truthy_string (trim (title f))));
      destruct (truthy_string (email f) && negb _);
      simplify_map_eq; split; intros H;
        solve [eauto | discriminate | now destruct H].
  - apply trim_empty.
  - rewrite <- He. unfold validateForm. cbn [fst].
    destruct (negb (truthy_string (trim (title f))));
      destruct (truthy_string (email f) && negb _);
      simplify_map_eq; split; intros H;
        solve [eauto | discriminate | now destruct H].
  - intros k H1 H2. unfold validateForm. cbn [fst].
    destruct (negb (truthy_string (trim (title f))));
      destruct (truthy_string (email f) && negb _);
      now simplify_map_eq.
  - assert (He' : email f = EmptyString \/ emailShape (email f) <->
                  truthy_string (email f)
                  && negb (test emailPattern (email f)) <> true).
    { rewrite He. destruct (email f) as [|c e]; [intuition congruence|].
      rewrite <- test_emailPattern.
      destruct (test emailPattern (String c e));
        intuition congruence. }
    rewrite He', <- Ht. unfold validateForm. cbn [fst].
    destruct (negb (truthy_string (trim (title f))));
      destruct (truthy_string (email f) && negb _);
      split; intros H; try solve [intuition congruence];
      exfalso;
      solve [ apply (f_equal (fun m => m !! "title")) in H;
              simplify_map_eq
            | apply (f_equal (fun m => m !! "email")) in H;
              simplify_map_eq ].
  - unfold validateForm. cbn [fst snd]. rewrite Nat.eqb_eq.
    apply map_size_empty_iff.
Qed.

End FormFacts.

(** ** The translation lookup: proofs *)

Module I18nFacts.
Import JS I18n.

Section Lookup.

Variable inherited : value -> string -> completion.
Variable translations : value.

(** Once a segment is missing, optional chaining keeps the value
    [undefined] to the end of the path. *)
Lemma follow_undefined (keys : list string) :
  follow inherited keys VUndefined = Returns VUndefined.
Proof. induction keys as [|k keys IH]; [reflexivity|exact IH]. Qed.


Lemma follow_app (pre post : list string) (v : value) :
  follow inherited (pre ++ post) v
  = match follow inherited pre v with
    | Returns x => follow inherited post x
    | Throws => Throws
    end.
Proof.
  revert v. induction pre as [|k pre IH]; intros v; cbn; [reflexivity|].
  destruct (optionalGet inherited v k); [apply IH|reflexivity].
Qed.

(** Along a path of own properties the loop of [t] finds what the table
    says, whatever the host inherits. *)
Lemma follow_ownPath (keys : list string) :
  forall v x,
    Locale.ownPath keys v = Some x ->
    follow inherited keys v = Returns x.
Proof.
  induction keys as [|k keys IH]; intros v x H; cbn in *.
  - congruence.
  - destruct v; try discriminate.
    destruct (ownField k fields) as [y|] eqn:E; [|discriminate].
    cbn. rewrite E. now apply IH.
Qed.

(** On a table that is an object, [translations[currentLang]] is the first
    step of the same walk. *)
Lemma resolve_follow (fields : list (string * value))
    (currentLang key : string) :
  translations = VObject fields ->
  resolve inherited translations currentLang key
  = follow inherited (currentLang :: split "." key) translations.
Proof. intros ->. reflexivity. Qed.

(** A non-empty own path starts at an object. *)
Lemma ownPath_object (k : string) (keys : list string) (v x : value) :
  Locale.ownPath (k :: keys) v = Some x -> exists fields, v = VObject fields.
Proof. destruct v; try discriminate. eauto. Qed.



(** The walk of [t] from the table, for a path that leaves the own
    properties at the object [fields], at the segment [k]. *)
Lemma resolve_leaves
    (currentLang key : string) (pre post : list string) (k : string)
    (fields : list (string * value)) :
  (currentLang :: split "." key = pre ++ k :: post)%list ->
  Locale.ownPath pre translations = Some (VObject fields) ->
  ownField k fields = None ->
  resolve inherited translations currentLang key
  = match inherited (VObject fields) k with
    | Returns x => follow inherited post x
    | Throws => Throws
    end.
Proof.
  intros Hs Hp Hk.
  assert (exists fs, translations = VObject fs) as [fs Ht].
  { destruct pre as [|p pre]; [|now apply ownPath_object in Hp].
    injection Hp as ->. eauto. }
  rewrite (resolve_follow fs _ _ Ht), Hs, follow_app.
  rewrite (follow_ownPath _ _ _ Hp). cbn. now rewrite Hk.
Qed.


End Lookup.



(** The lookup on the excerpt: keys that resolve, keys that do not, a locale
    without a table, and the empty key. *)
Lemma t_on_excerpt :
  t bareHost translationsExcerpt "en" "nav.home" = Returns (VString "Home") /\
  t bareHost translationsExcerpt "en" "info.platforms.youtube.name"
  = Returns (VString "YouTube Channel") /\
  t bareHost translationsExcerpt "en" "nav.missing"
  = Returns (VString "nav.missing") /\
  t bareHost translationsExcerpt "en" "missing.home"
  = Returns (VString "missing.home") /\
  t bareHost translationsExcerpt "fr" "nav.home"
  = Returns (VString "nav.home") /\
  t bareHost translationsExcerpt "en" "" = Returns (VString "").
Proof. vm_compute. repeat split. Qed.

End I18nFacts.

(** ** The lock screen: proofs *)

Module LockViewFacts.
Import JS Gate JSFacts GateFacts LockView.

Lemma storeWritten_empty : storeWritten ∅.
Proof. split; left; apply lookup_empty. Qed.

(** With no deadline in storage the mount effect loads the counter only. *)
Lemma initialize_counter_only (now n : Z) (ls ss : gmap string string) :
  ls !! "secretLockUntil" = None ->
  ls !! "secretAttempts" = Some (toString (Int n)) ->
  initialize now ls ss = mkGate (mkLock (Int n) false None) ls ss.
Proof.
  intros H1 H2. unfold initialize, savedItem at 1. rewrite H1.
  now rewrite (savedItem_toString _ _ _ H2), parseInt_toString.
Qed.

Lemma initialize_counted (now : Z) (ls ss : gmap string string) :
  storeWritten ls -> counted (initialize now ls ss).
Proof.
  intros [Ha Hl].
  destruct Hl as [Hl|(t & n & Hn & Hl & Hn')].
  - destruct Ha as [Ha|(n & Hn & Ha)].
    + rewrite initialize_nothing_saved
        by (unfold savedItem; now rewrite ?Hl, ?Ha).
      repeat split; cbn; auto. exists 0. repeat split; [lia|discriminate].
    + rewrite (initialize_counter_only _ n) by assumption.
      repeat split; cbn; eauto. exists n. repeat split; [lia|discriminate].
  - destruct (Z.lt_ge_cases now t) as [Ht|Ht].
    + rewrite (initialize_live_lock _ t n) by assumption.
      repeat split; cbn; eauto 6; try discriminate.
      exists n. repeat split; [lia|auto].
    + rewrite (initialize_expired_lock _ t n) by assumption.
      repeat split; cbn.
      * right. exists n. split; [lia|]. now rewrite lookup_delete_ne.
      * left. apply lookup_delete_eq.
      * exists n. repeat split; [lia|discriminate].
      * intros _. apply lookup_delete_eq.
Qed.

Lemma tick_counted (now : Z) (g : Gate) : counted g -> counted (tick now g).
Proof.
  intros Hg. rewrite tick_unfold.
  destruct (locked (mem g) && expired now (mem g)); [|exact Hg].
  unfold cleared. repeat split; cbn.
  - left. apply lookup_delete_eq.
  - left. rewrite lookup_delete_ne by discriminate. apply lookup_delete_eq.
  - exists 0. repeat split; [lia|discriminate].
  - intros _. rewrite lookup_delete_ne by discriminate. apply lookup_delete_eq.
Qed.

Lemma handleSubmit_counted (code : string) (now : Z) (g : Gate) :
  counted g -> counted (snd (handleSubmit code now g)).
Proof.
  intros Hg. pose proof Hg as (Hs & (m & Hm & Hm0 & Hm5) & Hu).
  unfold handleSubmit.
  destruct (isLocked (mem g) || negb (truthy_string (trim code))) eqn:E;
    [exact Hg|].
  apply orb_false_elim in E as [Hl _]. specialize (Hu Hl).
  destruct (String.eqb code secret).
  - repeat split; cbn.
    + left. apply lookup_delete_eq.
    + left. now rewrite lookup_delete_ne.
    + eauto.
    + intros _. now rewrite lookup_delete_ne.
  - rewrite Hm. cbn [add geb]. destruct (Z.leb_spec 5 (m + 1)).
    + repeat split; cbn.
      * right. exists (m + 1). split; [lia|].
        rewrite lookup_insert_ne by discriminate. apply lookup_insert_eq.
      * right. exists (now + lockDuration), (m + 1). split; [lia|].
        split; [apply lookup_insert_eq|].
        rewrite lookup_insert_ne by discriminate. apply lookup_insert_eq.
      * exists (m + 1). repeat split; lia.
      * discriminate.
    + repeat split; cbn.
      * right. exists (m + 1). split; [lia|]. apply lookup_insert_eq.
      * left. now rewrite lookup_insert_ne.
      * exists (m + 1). repeat split; [lia|]. intros. congruence.
      * intros _. now rewrite lookup_insert_ne.
Qed.

Lemma reachable_counted (ls0 : gmap string string) (g : Gate) :
  storeWritten ls0 -> Gate.reachable ls0 g -> counted g.
Proof.
  intros H0. induction 1 as [now ss|now ss g _ IH|now g _ IH|code now g _ IH].
  - now apply initialize_counted.
  - apply initialize_counted, IH.
  - now apply tick_counted.
  - now apply handleSubmit_counted.
Qed.

(** X1.  From durable storage that only the gate has written (an empty one
    at a first visit), the attempt counter of the component is always a
    natural number, never [NaN] or negative, and the gate is locked only
    with at least five attempts counted; so the retry message and the
    lockout message are never shown together, and the retry message, when
    shown, announces between one and four attempts left. *)
Theorem locked_only_after_five_attempts
    (ls0 : gmap string string) (g : Gate) :
  storeWritten ls0 -> Gate.reachable ls0 g ->
  (exists m, attempts (mem g) = Int m /\ 0 <= m /\
             (isLocked (mem g) = true -> 5 <= m)) /\
  showsRetry (mem g) && showsLockout (mem g) = false /\
  (showsRetry (mem g) = true ->
   exists r, attemptsRemaining (mem g) = Int r /\ 1 <= r <= 4).
Proof.
  intros H0 Hr.
  destruct (reachable_counted _ _ H0 Hr) as (_ & (m & Hm & Hm0 & Hm5) & _).
  split; [eauto|]. unfold showsRetry, showsLockout, attemptsRemaining.
  rewrite Hm. cbn [gtb ltb sub]. split.
  - destruct (isLocked (mem g)); [|now rewrite andb_false_r].
    specialize (Hm5 eq_refl). rewrite andb_true_r.
    destruct (Z.ltb_spec m 5); [lia|now rewrite andb_false_r].
  - intros H. apply andb_prop in H as [H1 H2].
    apply Z.ltb_lt in H1, H2. exists (5 - m). split; [reflexivity|lia].
Qed.

Lemma locked_only_after_five_attempts_scenario :
  showsRetry (mem (submitAll fourWrong firstVisit))
  && showsLockout (mem (submitAll fourWrong firstVisit)) = false.
Proof.
  apply (locked_only_after_five_attempts ∅ (submitAll fourWrong firstVisit)).
  - apply storeWritten_empty.
  - apply reachable_submitAll, firstVisit_reachable.
Defined.

(** *** Persistence *)

(** X2.  What a wrong submission persists, a remount reads back: after a
    wrong code on a well-formed unlocked gate, mounting the component again
    (before the deadline, when the submission locked the gate) restores
    exactly the state cells the submission left. *)
Theorem wrong_submission_survives_remount
    (g : Gate) (code : string) (now now' n : Z) (ss : gmap string string) :
  settled g -> isLocked (mem g) = false -> attempts (mem g) = Int n ->
  wrongCode code ->
  (isLocked (mem (snd (handleSubmit code now g))) = true ->
   now' < now + 900000) ->
  mem (initialize now' (localStorage (snd (handleSubmit code now g))) ss)
  = mem (snd (handleSubmit code now g)).
Proof.
  intros [Hc Hs] Hl Ha Hw.
  rewrite (handleSubmit_wrong code now g n Hl Hw Ha). cbn [snd].
  assert (Hu : lockUntil (mem g) = None).
  { destruct (lockUntil (mem g)) eqn:E; [|reflexivity].
    assert (isLocked (mem g) = true) by (apply Hc; congruence). congruence. }
  destruct (5 <=? n + 1); cbn [mem isLocked localStorage]; intros Ht.
  - rewrite (initialize_live_lock now' (now + lockDuration) (n + 1)).
    + reflexivity.
    + apply lookup_insert_eq.
    + rewrite lookup_insert_ne by discriminate. apply lookup_insert_eq.
    + apply Ht. reflexivity.
  - rewrite Hu. unfold initialize.
    assert (E : savedItem
                  (<["secretAttempts" := toString (Int (n + 1))]>
                     (localStorage g)) "secretLockUntil" = None).
    { unfold savedItem. rewrite lookup_insert_ne by discriminate.
      apply (Hs Hl). }
    rewrite E.
    rewrite (savedItem_toString _ _ (Int (n + 1)))
      by apply lookup_insert_eq.
    now rewrite parseInt_toString.
Qed.

Lemma wrong_submission_survives_remount_scenario :
  mem (initialize 6000
         (localStorage
            (snd (handleSubmit wrongGuess 5000
                    (submitAll fourWrong firstVisit)))) ∅)
  = mem (snd (handleSubmit wrongGuess 5000 (submitAll fourWrong firstVisit))).
Proof.
  apply (wrong_submission_survives_remount
           (submitAll fourWrong firstVisit) wrongGuess 5000 6000 4 ∅).
  - apply (reachable_settled ∅), reachable_submitAll, firstVisit_reachable.
  - reflexivity.
  - reflexivity.
  - apply wrongGuess_wrong.
  - intros _. lia.
Defined.

(** *** The whole lockout *)

(** X3.  The life of a lockout.  The wrong submission that brings the
    counter to five at a time [now >= 0] locks the gate; until 900000 ms
    have passed the timer changes nothing and every submission is refused;
    from then on one firing of the timer puts the component back to its
    fresh state and leaves neither the counter nor the deadline in storage,
    so that a remount starts fresh as well. *)
Theorem lockout_runs_its_course
    (g : Gate) (code : string) (now : Z) (ss : gmap string string) :
  isLocked (mem g) = false -> attempts (mem g) = Int 4 -> wrongCode code ->
  0 <= now ->
  (forall t c,
      t < now + 900000 ->
      tick t (snd (handleSubmit code now g)) = snd (handleSubmit code now g)
      /\ handleSubmit c t (snd (handleSubmit code now g))
         = (false, snd (handleSubmit code now g))) /\
  (forall t,
      now + 900000 <= t ->
      mem (tick t (snd (handleSubmit code now g))) = fresh /\
      localStorage (tick t (snd (handleSubmit code now g)))
        !! "secretAttempts" = None /\
      localStorage (tick t (snd (handleSubmit code now g)))
        !! "secretLockUntil" = None /\
      forall t',
        mem (initialize t'
               (localStorage (tick t (snd (handleSubmit code now g)))) ss)
        = fresh).
Proof.
  intros Hl Ha Hw Hnow.
  rewrite (handleSubmit_wrong code now g 4 Hl Hw Ha). cbn [snd Z.leb].
  change (5 <=? 4 + 1) with true. cbv iota.
  split.
  - intros t c Ht. split; [|now apply handleSubmit_locked].
    rewrite tick_unfold. unfold locked, expired. cbn.
    destruct (Z.leb_spec (now + lockDuration) t) as [H|_];
      [unfold lockDuration in H; lia|].
    now rewrite andb_false_r.
  - intros t Ht. rewrite tick_unfold. unfold locked, expired. cbn.
    destruct (Z.eqb_spec (now + lockDuration) 0) as [H|_];
      [unfold lockDuration in H; lia|].
    destruct (Z.leb_spec (now + lockDuration) t) as [_|H];
      [|unfold lockDuration in H; lia].
    cbn. repeat split.
    + apply lookup_delete_eq.
    + rewrite lookup_delete_ne by discriminate. apply lookup_delete_eq.
    + intros t'. rewrite initialize_nothing_saved; [reflexivity| |].
      * unfold savedItem. rewrite lookup_delete_ne by discriminate.
        now rewrite lookup_delete_eq.
      * unfold savedItem. now rewrite lookup_delete_eq.
Qed.

Lemma lockout_runs_its_course_scenario :
  mem (tick 905000
         (snd (handleSubmit wrongGuess 5000 (submitAll fourWrong firstVisit))))
  = fresh.
Proof.
  apply (lockout_runs_its_course (submitAll fourWrong firstVisit)
           wrongGuess 5000 ∅); try reflexivity; try lia.
  apply wrongGuess_wrong.
Defined.

(** X18.  The passcode after wrong attempts.  From a state with
    [attempts = 0] and no lockout, after any run of at most four wrong
    codes the passcode is still accepted; accepting it removes the counter
    those attempts had stored and sets the session flag, and a later mount
    of the lock screen starts with no attempt counted and no lockout. *)
Theorem passcode_accepted_after_wrong_attempts
    (g : Gate) (subs : list (string * Z)) (now : Z) :
  attempts (mem g) = Int 0 -> noLockout g ->
  Forall (fun s => wrongCode (fst s)) subs -> (length subs <= 4)%nat ->
  fst (handleSubmit secret now (submitAll subs g)) = true /\
  localStorage (snd (handleSubmit secret now (submitAll subs g)))
    !! "secretAttempts" = None /\
  sessionStorage (snd (handleSubmit secret now (submitAll subs g)))
    !! "secretUnlocked" = Some "true" /\
  forall now' ss,
    mem (initialize now'
           (localStorage (snd (handleSubmit secret now (submitAll subs g))))
           ss)
    = fresh.
Proof.
  intros Ha Hno Hw Hlen.
  destruct (submitAll_wrong_run subs g 0 Hno Ha Hw ltac:(lia))
    as (_ & (Hl & _ & Hs) & _ & _).
  rewrite (handleSubmit_secret now _ Hl). cbn. repeat split.
  - apply lookup_delete_eq.
  - apply lookup_insert_eq.
  - intros now' ss. rewrite initialize_nothing_saved; [reflexivity| |].
    + unfold savedItem. rewrite lookup_delete_ne by discriminate.
      now rewrite Hs.
    + unfold savedItem. now rewrite lookup_delete_eq.
Qed.

Lemma passcode_accepted_after_wrong_attempts_scenario :
  fst (handleSubmit secret 5000 (submitAll fourWrong firstVisit)) = true.
Proof.
  apply (passcode_accepted_after_wrong_attempts firstVisit fourWrong 5000).
  - reflexivity.
  - repeat split.
  - repeat constructor; discriminate.
  - cbn. lia.
Defined.

(** *** A counter that is not a number *)

Lemma handleSubmit_wrong_NaN (code : string) (now : Z) (g : Gate) :
  isLocked (mem g) = false -> wrongCode code -> attempts (mem g) = NaN ->
  handleSubmit code now g
  = (false,
     mkGate (mkLock NaN false (lockUntil (mem g)))
       (<["secretAttempts" := "NaN"]> (localStorage g)) (sessionStorage g)).
Proof.
  intros Hl [Hb Hs] Ha. unfold handleSubmit.
  rewrite Hl, Hb, Ha. cbn [orb negb].
  destruct (String.eqb_spec code secret) as [->|_]; [congruence|].
  reflexivity.
Qed.

(** X4.  A stored counter that does not parse as a number switches the
    lockout off: the component starts with [attempts = NaN], and then no run
    of wrong submissions, however long, ever locks the gate; each of them
    stores the text ['NaN'], which a remount reads back as [NaN] again. *)
Theorem unparsable_counter_never_locks
    (now : Z) (ls ss : gmap string string) (saved : string)
    (subs : list (string * Z)) :
  savedItem ls "secretLockUntil" = None ->
  ls !! "secretAttempts" = Some saved -> truthy_string saved = true ->
  parseInt saved = NaN ->
  Forall (fun s => wrongCode (fst s)) subs ->
  attempts (mem (submitAll subs (initialize now ls ss))) = NaN /\
  isLocked (mem (submitAll subs (initialize now ls ss))) = false /\
  (subs <> [] ->
   localStorage (submitAll subs (initialize now ls ss)) !! "secretAttempts"
   = Some "NaN" /\
   forall now',
     attempts
       (mem (initialize now'
               (localStorage (submitAll subs (initialize now ls ss))) ss))
     = NaN).
Proof.
  intros Hlock Hsaved Htruthy Hparse Hw.
  assert (Hinit : initialize now ls ss = mkGate (mkLock NaN false None) ls ss).
  { unfold initialize. rewrite Hlock. unfold savedItem.
    now rewrite Hsaved, Htruthy, Hparse. }
  rewrite Hinit. clear Hinit.
  assert (Hrun : forall g,
    attempts (mem g) = NaN -> isLocked (mem g) = false ->
    lockUntil (mem g) = None ->
    savedItem (localStorage g) "secretLockUntil" = None ->
    mem (submitAll subs g) = mkLock NaN false None /\
    savedItem (localStorage (submitAll subs g)) "secretLockUntil" = None /\
    (subs <> [] ->
     localStorage (submitAll subs g) !! "secretAttempts" = Some "NaN")).
  { induction Hw as [|[c t] subs Hc Hw IH]; intros g Ha Hl Hu Hs.
    - cbn. destruct g as [[a l u] ? ?]; cbn in *; subst.
      repeat split; [assumption|congruence].
    - rewrite submitAll_cons, (handleSubmit_wrong_NaN c t g Hl Hc Ha).
      cbn [snd]. rewrite Hu.
      assert (Hs' : savedItem
                      (<["secretAttempts" := "NaN"]> (localStorage g))
                      "secretLockUntil" = None).
      { unfold savedItem. rewrite lookup_insert_ne by discriminate.
        exact Hs. }
      destruct (IH (mkGate (mkLock NaN false None)
                      (<["secretAttempts" := "NaN"]> (localStorage g))
                      (sessionStorage g)) eq_refl eq_refl eq_refl Hs')
        as (A & B & C).
      repeat split; try assumption. intros _.
      destruct subs as [|s subs]; [apply lookup_insert_eq|].
      apply C. discriminate. }
  destruct (Hrun (mkGate (mkLock NaN false None) ls ss)
              eq_refl eq_refl eq_refl Hlock) as (A & B & C).
  rewrite A. repeat split; [now apply C|].
  intros now'. unfold initialize. rewrite B.
  unfold savedItem. now rewrite (C H).
Qed.

Lemma unparsable_counter_never_locks_scenario :
  isLocked
    (mem (submitAll fiveWrong
            (initialize 0 {["secretAttempts" := "five"]} ∅))) = false.
Proof.
  apply (unparsable_counter_never_locks 0 {["secretAttempts" := "five"]} ∅
           "five" fiveWrong); try reflexivity.
  repeat constructor; discriminate.
Defined.

(** *** The minutes shown *)

Lemma ceilDiv_bounds (a b : Z) :
  0 < b -> b * (ceilDiv a b - 1) < a <= b * ceilDiv a b.
Proof.
  intros Hb. unfold ceilDiv.
  pose proof (Z.div_mod (- a) b ltac:(lia)).
  pose proof (Z.mod_pos_bound (- a) b Hb). nia.
Qed.

Lemma ceilDiv_mono (a a' b : Z) :
  0 < b -> a <= a' -> ceilDiv a b <= ceilDiv a' b.
Proof.
  intros Hb H. unfold ceilDiv.
  assert ((- a') / b <= (- a) / b) by (apply Z.div_le_mono; lia). lia.
Qed.

(** X5.  The minutes of the lockout message never go up as time advances;
    they are 0 when the gate is not locked; while a deadline at most 15
    minutes away is still ahead they lie between 1 and 15, and once the
    deadline is reached they are 0 or less. *)
Theorem remainingTime_counts_down (l : LockState) :
  (forall now now', now <= now' ->
                    remainingTime now' l <= remainingTime now l) /\
  (locked l = false -> forall now, remainingTime now l = 0) /\
  (forall now t,
      locked l = true -> lockUntil l = Some t ->
      (now < t <= now + 900000 -> 1 <= remainingTime now l <= 15) /\
      (t <= now -> remainingTime now l <= 0)).
Proof.
  unfold remainingTime. split; [|split].
  - intros now now' H. destruct (locked l); [|lia].
    destruct (lockUntil l) as [t|]; [|lia].
    apply ceilDiv_mono; lia.
  - now intros ->.
  - intros now t -> ->.
    pose proof (ceilDiv_bounds (t - now) 60000 ltac:(lia)). split; lia.
Qed.

Lemma remainingTime_counts_down_scenario :
  1 <= remainingTime 6000 (mkLock (Int 5) true (Some 905000)) <= 15.
Proof.
  destruct (remainingTime_counts_down (mkLock (Int 5) true (Some 905000)))
    as (_ & _ & H).
  apply (H 6000 905000 eq_refl eq_refl). lia.
Defined.

End LockViewFacts.

(** ** The language of the page: proofs *)

Module LocaleFacts.
Import JS Gate I18n Locale.

Local Arguments String.append !_ _ / : simpl nomatch.

Lemma split_nonempty (sep : ascii) (s : string) : split sep s <> [].
Proof.
  induction s as [|c s IH]; cbn; [discriminate|].
  destruct (Ascii.eqb c sep); [discriminate|].
  destruct (split sep s); discriminate.
Qed.

(** The first piece of [split] is the text before the first separator. *)
Lemma hd_split (sep : ascii) (s : string) :
  forall p,
    hd EmptyString (split sep s) = p <->
    without sep p = true /\
    (s = p \/ exists rest, s = String.append p (String sep rest)).
Proof.
  induction s as [|c s IH]; intros p.
  - cbn. split.
    + intros <-. auto.
    + intros [_ [<-|[rest E]]]; [reflexivity|].
      destruct p; discriminate.
  - cbn [split]. destruct (Ascii.eqb_spec c sep) as [->|Hc].
    + cbn. split.
      * intros <-. split; [reflexivity|]. right. now exists s.
      * intros [Hp [E|[rest E]]]; destruct p as [|x p]; try reflexivity;
          cbn in E; injection E as <- _; cbn in Hp;
          now rewrite Ascii.eqb_refl in Hp.
    + pose proof (split_nonempty sep s) as Hne.
      destruct (split sep s) as [|x xs] eqn:Es; [congruence|].
      cbn [hd] in *. split.
      * intros <-. destruct (proj1 (IH x) eq_refl) as [Hx Hs].
        split.
        { cbn. rewrite Hx.
          destruct (Ascii.eqb_spec c sep); [congruence|reflexivity]. }
        destruct Hs as [->|[rest ->]]; [now left|right].
        now exists rest.
      * intros [Hp [E|[rest E]]]; destruct p as [|y p]; try discriminate.
        { injection E as -> ->. f_equal. apply IH.
          cbn in Hp. apply andb_prop in Hp as [_ Hp]. auto. }
        { cbn in E. injection E as -> Hc'. now contradict Hc. }
        { cbn in E. injection E as -> ->. f_equal. apply IH.
          cbn in Hp. apply andb_prop in Hp as [_ Hp]. eauto. }
Qed.

(** X6.  With no saved preference the page starts in one of its two
    languages: Arabic exactly when the browser language is ['ar'] or starts
    with ['ar-'], English otherwise, and the text direction is
    right-to-left exactly for Arabic.  A saved preference is taken as it
    is, supported or not. *)
Theorem initial_language_from_browser
    (ls : gmap string string) (navigatorLanguage : string) :
  (savedItem ls "preferred-language" = None ->
   supported (initialLang ls navigatorLanguage) /\
   (initialLang ls navigatorLanguage = "ar" <->
    navigatorLanguage = "ar" \/
    exists region, navigatorLanguage = String.append "ar-" region) /\
   (isRTL (loadLocale ls navigatorLanguage) = true <->
    initialLang ls navigatorLanguage = "ar")) /\
  (forall saved,
      savedItem ls "preferred-language" = Some saved ->
      initialLang ls navigatorLanguage = saved).
Proof.
  unfold isRTL, loadLocale, initialLang, supported. cbn. split.
  - intros ->.
    destruct (String.eqb_spec
                (hd EmptyString (split "-" navigatorLanguage)) "ar")
      as [E|E].
    + apply hd_split in E as [_ E]. repeat split; auto.
    + repeat split; auto; try discriminate.
      intros H. exfalso. apply E. apply hd_split.
      split; [reflexivity|]. exact H.
  - now intros saved ->.
Qed.

(** X7.  Toggling the language always lands on one of the two supported
    languages and stores it; a reload then starts in that language whatever
    the browser language is.  From a supported language two toggles come
    back to it; from anything else the toggle goes to English. *)
Theorem toggle_language_persists (l : Locale) (navigatorLanguage : string) :
  supported (currentLang (toggleLanguage l)) /\
  store (toggleLanguage l) !! "preferred-language"
  = Some (currentLang (toggleLanguage l)) /\
  initialLang (store (toggleLanguage l)) navigatorLanguage
  = currentLang (toggleLanguage l) /\
  (supported (currentLang l) ->
   currentLang (toggleLanguage (toggleLanguage l)) = currentLang l) /\
  (~ supported (currentLang l) -> currentLang (toggleLanguage l) = "en").
Proof.
  unfold toggleLanguage, initialLang, savedItem, supported. cbn.
  rewrite lookup_insert_eq.
  destruct (String.eqb_spec (currentLang l) "en") as [E|E]; cbn.
  - rewrite E. repeat split; auto. intros H. contradict H. auto.
  - repeat split; auto. intros [H|H]; congruence.
Qed.

(** *** Entries of the table *)

Section OwnEntries.

Variable inherited : value -> string -> completion.
Variable translations : value.

(** X8.  An entry of the table is what [t] returns for its key, on every
    host: when the path of the key, segment by segment through own
    properties of the nested objects of the current locale, ends at a truthy
    value, [t] returns that value; when it ends at an empty string, or
    leaves the table at an object that lacks the segment and inherits
    nothing under that name, [t] returns the key. *)
Theorem t_returns_table_entries
    (lang key : string) (pre post : list string) (k : string) (v : value)
    (fields : list (string * value)) :
  (ownPath (lang :: split "." key) translations = Some v ->
   truthy v = true ->
   t inherited translations lang key = Returns v) /\
  (ownPath (lang :: split "." key) translations = Some (VString "") ->
   t inherited translations lang key = Returns (VString key)) /\
  (lang :: split "." key = (pre ++ k :: post)%list ->
   ownPath pre translations = Some (VObject fields) ->
   ownField k fields = None ->
   inherited (VObject fields) k = Returns VUndefined ->
   t inherited translations lang key = Returns (VString key)).
Proof.
  unfold t. split; [|split].
  - intros Hp Hv.
    destruct (I18nFacts.ownPath_object _ _ _ _ Hp) as [fs Ht].
    rewrite (I18nFacts.resolve_follow _ _ fs _ _ Ht).
    rewrite (I18nFacts.follow_ownPath _ _ _ _ Hp), Hv. reflexivity.
  - intros Hp.
    destruct (I18nFacts.ownPath_object _ _ _ _ Hp) as [fs Ht].
    rewrite (I18nFacts.resolve_follow _ _ fs _ _ Ht).
    rewrite (I18nFacts.follow_ownPath _ _ _ _ Hp). reflexivity.
  - intros Hs Hp Hk Hi.
    rewrite (I18nFacts.resolve_leaves _ _ _ _ _ _ _ _ Hs Hp Hk), Hi.
    now rewrite I18nFacts.follow_undefined.
Qed.

End OwnEntries.

Lemma t_returns_table_entries_scenario :
  t bareHost translationsExcerpt "en" "info.platforms.youtube.name"
  = Returns (VString "YouTube Channel") /\
  t bareHost translationsExcerpt "en" "nav.missing"
  = Returns (VString "nav.missing").
Proof.
  split.
  - apply (t_returns_table_entries bareHost translationsExcerpt "en"
             "info.platforms.youtube.name" [] [] "" _ []); reflexivity.
  - eapply (t_returns_table_entries bareHost translationsExcerpt "en"
              "nav.missing" ["en"; "nav"] [] "missing" VUndefined);
      reflexivity.
Defined.

End LocaleFacts.

(** ** Small components: proofs *)

Module WidgetsFacts.
Import JS Widgets.

Local Arguments String.append !_ _ / : simpl nomatch.

Lemma substring_snoc (text : string) :
  forall (i m : nat) (c : ascii),
    String.get (i + m) text = Some c ->
    substring i (S m) text
    = String.append (substring i m text) (String c EmptyString).
Proof.
  induction text as [|a text IH]; intros i m c H.
  - destruct (i + m)%nat; discriminate.
  - destruct i as [|i].
    + destruct m as [|m]; cbn in *.
      * injection H as ->. now destruct text.
      * f_equal. now apply (IH 0%nat).
    + cbn in H. destruct m; cbn; now apply IH.
Qed.

Lemma get_in_range (text : string) :
  forall i, (i < String.length text)%nat ->
            exists c, String.get i text = Some c.
Proof.
  induction text as [|a text IH]; intros i H; cbn in *; [lia|].
  destruct i; [eauto|]. apply IH. lia.
Qed.

Lemma substring_zero (text : string) (i : nat) :
  substring i 0 text = EmptyString.
Proof.
  revert i. induction text as [|a text IH]; intros [|i]; cbn; auto.
Qed.

Lemma substring_all (text : string) :
  substring 0 (String.length text) text = text.
Proof. induction text; cbn; congruence. Qed.

(** X9.  The typewriter types the text it is given and nothing else: from
    any state, [m] rounds append the next [m] characters of the current
    text, starting at [index], or as many as are left, and advance [index]
    by as much.  From the start the display after [m] rounds is the first
    [m] characters; after [text.length] rounds it is the whole text, the
    cursor is shown, and further rounds change nothing. *)
Theorem typewriter_types_the_text (text : string) (w : Typewriter) (m : nat) :
  Nat.iter m (typeStep text) w
  = mkTypewriter
      (String.append (displayText w)
         (substring (index w) (Nat.min m (String.length text - index w))
            text))
      (index w + Nat.min m (String.length text - index w)) /\
  displayText (Nat.iter m (typeStep text) typewriterStart)
  = substring 0 (Nat.min m (String.length text)) text /\
  Nat.iter (String.length text + m) (typeStep text) typewriterStart
  = mkTypewriter text (String.length text) /\
  cursorShown text
    (Nat.iter (String.length text + m) (typeStep text) typewriterStart)
  = true.
Proof.
  assert (Hgen : forall k v,
    Nat.iter k (typeStep text) v
    = mkTypewriter
        (String.append (displayText v)
           (substring (index v) (Nat.min k (String.length text - index v))
              text))
        (index v + Nat.min k (String.length text - index v))).
  { induction k as [|k IH]; intros v.
    - cbn. rewrite substring_zero, Nat.add_0_r.
      destruct v as [d i]. cbn. f_equal.
      induction d; cbn; congruence.
    - rewrite Nat.iter_succ, IH. unfold typeStep. cbn [index displayText].
      destruct (Nat.ltb_spec
                  (index v + Nat.min k (String.length text - index v))
                  (String.length text)) as [Hlt|Hge].
      + assert (Hk : Nat.min k (String.length text - index v) = k) by lia.
        assert (Hk' : Nat.min (S k) (String.length text - index v) = S k)
          by lia.
        rewrite Hk, Hk' in *.
        destruct (get_in_range text _ Hlt) as [c Hc].
        unfold charAt. rewrite Hc, (substring_snoc _ _ _ _ Hc).
        rewrite FormFacts.append_assoc. f_equal. lia.
      + replace (Nat.min (S k) (String.length text - index v))
          with (Nat.min k (String.length text - index v)) by lia.
        reflexivity. }
  assert (Hfull : Nat.iter (String.length text + m) (typeStep text)
                    typewriterStart
                  = mkTypewriter text (String.length text)).
  { rewrite Hgen. cbn [typewriterStart displayText index].
    rewrite Nat.sub_0_r.
    replace (Nat.min (String.length text + m) (String.length text))
      with (String.length text) by lia.
    now rewrite substring_all. }
  split; [apply Hgen|]. split; [|split].
  - rewrite Hgen. cbn. now rewrite Nat.sub_0_r.
  - exact Hfull.
  - rewrite Hfull. apply Nat.eqb_refl.
Qed.

Lemma nextImage_iter (i n : nat) :
  Nat.iter (S n) nextImage i = ((i + S n) mod 4)%nat.
Proof.
  induction n as [|n IH]; [reflexivity|].
  rewrite Nat.iter_succ, IH. unfold nextImage, imageCount.
  rewrite Nat.Div0.add_mod_idemp_l. f_equal. lia.
Qed.

(** X10.  The slideshow always points at one of its four images: from an
    image [i] of the four, after [n] ticks it shows image [(i + n) mod 4],
    so it visits the images in order, never leaves the range, and is back
    at the same image after every multiple of four ticks. *)
Theorem slideshow_cycles (i n : nat) :
  (i < imageCount)%nat ->
  Nat.iter n nextImage i = ((i + n) mod 4)%nat /\
  (Nat.iter n nextImage i < imageCount)%nat /\
  Nat.iter (4 * n) nextImage i = i.
Proof.
  unfold imageCount. intros Hi.
  assert (H : forall k, Nat.iter k nextImage i = ((i + k) mod 4)%nat).
  { intros [|k]; [|apply nextImage_iter].
    change (Nat.iter 0 nextImage i) with i.
    now rewrite Nat.add_0_r, Nat.mod_small. }
  rewrite !H. repeat split.
  - apply Nat.mod_upper_bound. lia.
  - rewrite Nat.mul_comm, Nat.Div0.mod_add. now apply Nat.mod_small.
Qed.

Lemma slideshow_cycles_scenario : Nat.iter 6 nextImage 0%nat = 2%nat.
Proof. apply (slideshow_cycles 0 6). unfold imageCount. lia. Defined.

Lemma rippleRun_snoc (es : list (rippleEvent * Z)) (e : rippleEvent)
    (now : Z) :
  rippleRun (es ++ [(e, now)]) = rippleStep e now (rippleRun es).
Proof. unfold rippleRun. now rewrite fold_left_app. Qed.

(** X11.  No ripple outlives its removal: after any sequence of clicks and
    removals, every ripple still in the list has its removal callback
    pending, due 600 ms after the click that made it; so once no callback
    is pending the list is empty.  A click on a disabled button adds
    nothing. *)
Theorem ripples_wait_for_their_removal (es : list (rippleEvent * Z)) :
  (forall id : Z,
      id ∈ ripples (rippleRun es) ->
      (id + 600, id) ∈ removals (rippleRun es)) /\
  (removals (rippleRun es) = [] -> ripples (rippleRun es) = []) /\
  (forall now, rippleRun (es ++ [(Click true, now)]) = rippleRun es).
Proof.
  assert (Hinv : forall id : Z,
             id ∈ ripples (rippleRun es) ->
             (id + 600, id) ∈ removals (rippleRun es)).
  { induction es as [|[e now] es IH] using rev_ind; intros id.
    - cbn. intros H. now apply elem_of_nil in H.
    - rewrite rippleRun_snoc. destruct e as [[|]|]; cbn.
      + apply IH.
      + rewrite !elem_of_app, !list_elem_of_singleton.
        intros [H| ->]; [left; now apply IH|right; reflexivity].
      + unfold runRemoval.
        destruct (removals (rippleRun es)) as [|[due id'] rest] eqn:E;
          [rewrite E; apply IH|].
        destruct (due <=? now); [|rewrite E; apply IH]. cbn.
        rewrite list_elem_of_filter. intros [Hne H].
        apply IH in H. apply elem_of_cons in H as [H|H]; [|exact H].
        injection H as _ H. congruence. }
  split; [exact Hinv|]. split.
  - intros Hr. apply elem_of_nil_inv. intros id H.
    apply Hinv in H. rewrite Hr in H. now apply elem_of_nil in H.
  - intros now. now rewrite rippleRun_snoc.
Qed.

End WidgetsFacts.

(** ** The suggestion form inside the page: proofs *)

Module SuggestFacts.
Import JS App Form Suggest.

Lemma errorShown_insert_empty (errors : gmap string string) (k k' : string) :
  errorShown (<[k := EmptyString]> errors) k'
  = if String.eqb k k' then false else errorShown errors k'.
Proof.
  unfold errorShown. destruct (String.eqb_spec k k') as [->|H].
  - now rewrite lookup_insert_eq.
  - now rewrite lookup_insert_ne.
Qed.

(** X12.  Editing a field takes its message away at once and touches
    nothing else: after [handleInputChange] the field holds the new value,
    the other field is as it was, the message of the edited field is not
    shown, whatever was typed and without any new validation, and the
    message of the other field is shown exactly if it was shown before. *)
Theorem input_change_hides_its_error
    (f : field) (value : string) (sh : Shell) :
  getField f (suggestionForm (handleInputChange f value sh)) = value /\
  getField (otherField f) (suggestionForm (handleInputChange f value sh))
  = getField (otherField f) (suggestionForm sh) /\
  errorShown (formErrors (handleInputChange f value sh)) (fieldName f)
  = false /\
  errorShown (formErrors (handleInputChange f value sh))
    (fieldName (otherField f))
  = errorShown (formErrors sh) (fieldName (otherField f)) /\
  shellNav (handleInputChange f value sh) = shellNav sh /\
  isSubmitting (handleInputChange f value sh) = isSubmitting sh.
Proof.
  unfold handleInputChange. cbn.
  destruct (errorShown (formErrors sh) (fieldName f)) eqn:E;
    rewrite ?errorShown_insert_empty, ?E;
    destruct f; cbn; auto 10.
Qed.

(** The messages of [validateForm] are not empty: an error reported is an
    error shown. *)
Lemma validateForm_shows (form : SuggestionForm) :
  snd (validateForm form) = false ->
  errorShown (fst (validateForm form)) "title" = true \/
  errorShown (fst (validateForm form)) "email" = true.
Proof.
  unfold validateForm, errorShown. cbn [fst snd].
  destruct (negb (truthy_string (trim (title form))));
    destruct (truthy_string (email form) && negb _);
    simplify_map_eq; auto.
Qed.

(** X13.  A submission of the form.  When [validateForm] rejects the form,
    [handleSuggestionSubmit] only publishes the errors, at least one of
    which is shown: the page, the form and the submitting flag stay as they
    are and nothing is left waiting.  When the form is valid and nothing
    else is under way, the page shows the submitting state for 1000 ms;
    then the transition to ['thank-you'] starts, the form and the errors
    are emptied and the submitting state ends; 350 ms later the page is
    ['thank-you']. *)
Theorem suggestion_submit_flow (sh : Shell) (now : Z) :
  (snd (validateForm (suggestionForm sh)) = false ->
   handleSuggestionSubmit now sh
   = mkShell (shellNav sh) (suggestionForm sh)
       (fst (validateForm (suggestionForm sh))) (isSubmitting sh)
       (awaiting sh) /\
   (errorShown (formErrors (handleSuggestionSubmit now sh)) "title" = true \/
    errorShown (formErrors (handleSuggestionSubmit now sh)) "email" = true))
  /\
  (snd (validateForm (suggestionForm sh)) = true ->
   awaiting sh = [] -> pending (shellNav sh) = [] ->
   currentPage (shellNav sh) <> "thank-you" ->
   isSubmitting (handleSuggestionSubmit now sh) = true /\
   shellNav (handleSuggestionSubmit now sh) = shellNav sh /\
   formErrors (handleSuggestionSubmit now sh) = ∅ /\
   (forall t, t < now + 1000 ->
              resumeSubmit t (handleSuggestionSubmit now sh)
              = handleSuggestionSubmit now sh) /\
   forall t1 t2,
     now + 1000 <= t1 -> t1 + 350 <= t2 ->
     resumeSubmit t1 (handleSuggestionSubmit now sh)
     = mkShell
         (mkNav (currentPage (shellNav sh)) true
            (isMobileMenuOpen (shellNav sh)) [(t1 + 350, "thank-you")])
         (mkForm EmptyString EmptyString) ∅ false [] /\
     shellTimeout t2 (resumeSubmit t1 (handleSuggestionSubmit now sh))
     = mkShell (mkNav "thank-you" false false [])
         (mkForm EmptyString EmptyString) ∅ false []).
Proof.
  split.
  - intros Hbad. pose proof (validateForm_shows _ Hbad) as Hshown.
    unfold handleSuggestionSubmit.
    destruct (validateForm (suggestionForm sh)) as [errors ok].
    cbn [fst snd] in *. subst ok. auto.
  - intros Hok Hw Hp Hpage.
    assert (Herr : fst (validateForm (suggestionForm sh)) = ∅).
    { revert Hok. unfold validateForm. cbn [fst snd].
      rewrite Nat.eqb_eq. apply map_size_empty_iff. }
    unfold handleSuggestionSubmit.
    destruct (validateForm (suggestionForm sh)) as [errors ok].
    cbn [fst snd] in *. subst ok errors. rewrite Hw. cbn.
    repeat split.
    + intros t Ht. unfold resumeSubmit. cbn.
      destruct (Z.leb_spec (now + submitDelay) t) as [H|_];
        [unfold submitDelay in H; lia|reflexivity].
    + unfold resumeSubmit. cbn.
      destruct (Z.leb_spec (now + submitDelay) t1) as [_|Hlt];
        [|unfold submitDelay in Hlt; lia].
      unfold handleNavigationSeen.
      destruct (String.eqb_spec (currentPage (shellNav sh)) "thank-you");
        [congruence|].
      now rewrite Hp.
    + unfold resumeSubmit. cbn.
      destruct (Z.leb_spec (now + submitDelay) t1) as [_|Hlt];
        [|unfold submitDelay in Hlt; lia].
      unfold handleNavigationSeen.
      destruct (String.eqb_spec (currentPage (shellNav sh)) "thank-you");
        [congruence|].
      rewrite Hp. unfold shellTimeout, runTimer. cbn.
      destruct (Z.leb_spec (t1 + transitionDelay) t2) as [_|Hlt];
        [reflexivity|unfold transitionDelay in Hlt; lia].
Qed.

Lemma suggestion_submit_flow_scenario :
  shellTimeout 2000
    (resumeSubmit 1500
       (handleSuggestionSubmit 500
          (mkShell (mkNav "home" false false []) (mkForm "Wrecks" "a@b.co")
             ∅ false [])))
  = mkShell (mkNav "thank-you" false false [])
      (mkForm EmptyString EmptyString) ∅ false [].
Proof.
  apply (suggestion_submit_flow
           (mkShell (mkNav "home" false false []) (mkForm "Wrecks" "a@b.co")
              ∅ false []) 500);
    try reflexivity; try discriminate; lia.
Defined.

Lemma handleSuggestionSubmit_valid (now : Z) (sh : Shell) :
  snd (validateForm (suggestionForm sh)) = true ->
  handleSuggestionSubmit now sh
  = mkShell (shellNav sh) (suggestionForm sh) ∅ true
      (awaiting sh ++ [(now + 1000, currentPage (shellNav sh))]).
Proof.
  intros Hok.
  assert (Herr : fst (validateForm (suggestionForm sh)) = ∅).
  { revert Hok. unfold validateForm. cbn [fst snd].
    rewrite Nat.eqb_eq. apply map_size_empty_iff. }
  unfold handleSuggestionSubmit.
  destruct (validateForm (suggestionForm sh)) as [errors ok].
  cbn [fst snd] in *. now subst.
Qed.

Lemma resumeSubmit_due (now due : Z) (seen : string) (n : Nav)
    (form : SuggestionForm) (errors : gmap string string) (sub : bool)
    (rest : list (Z * string)) :
  due <= now ->
  resumeSubmit now (mkShell n form errors sub ((due, seen) :: rest))
  = mkShell (handleNavigationSeen seen "thank-you" now n)
      (mkForm EmptyString EmptyString) ∅ false rest.
Proof.
  intros H. unfold resumeSubmit. cbn.
  now destruct (Z.leb_spec due now); [|lia].
Qed.

Lemma validateForm_title_only (value : string) :
  truthy_string (trim value) = true ->
  validateForm (mkForm value EmptyString) = (∅, true).
Proof.
  intros H. unfold validateForm. cbn [Form.title Form.email]. now rewrite H.
Qed.

(** X19.  A second submission during the fade.  When the form is submitted
    again in the 350 ms during which the home page fades out after a first
    submission, its delayed call to [handleNavigation] still sees ['home']
    as the current page: it does not notice that the page is ['thank-you']
    by then, sets [isTransitioning] again and fades the thank-you page a
    second time, where a call that saw the present page would do
    nothing. *)
Theorem second_submission_fades_again
    (sh : Shell) (value : string) (t0 t1 t2 t3 : Z) :
  shellNav sh = mkNav "home" false false [] -> awaiting sh = [] ->
  snd (validateForm (suggestionForm sh)) = true ->
  truthy_string (trim value) = true ->
  t0 + 1000 <= t1 -> t1 <= t2 < t1 + 350 -> t2 + 1000 <= t3 ->
  shellNav
    (shellTimeout (t1 + 350)
       (handleSuggestionSubmit t2
          (handleInputChange TitleField value
             (resumeSubmit t1 (handleSuggestionSubmit t0 sh)))))
  = mkNav "thank-you" false false [] /\
  shellNav
    (resumeSubmit t3
       (shellTimeout (t1 + 350)
          (handleSuggestionSubmit t2
             (handleInputChange TitleField value
                (resumeSubmit t1 (handleSuggestionSubmit t0 sh))))))
  = mkNav "thank-you" true false [(t3 + 350, "thank-you")] /\
  handleNavigation "thank-you" t3 (mkNav "thank-you" false false [])
  = mkNav "thank-you" false false [].
Proof.
  intros Hnav Hw Hok Hv H1 H2 H3.
  rewrite (handleSuggestionSubmit_valid t0 sh Hok), Hw, Hnav.
  cbn [app currentPage].
  rewrite resumeSubmit_due by lia.
  change (handleNavigationSeen "home" "thank-you" t1
            (mkNav "home" false false []))
    with (mkNav "home" true false [(t1 + 350, "thank-you")]).
  unfold handleInputChange.
  cbn [shellNav suggestionForm formErrors isSubmitting awaiting setField
       Form.email].
  change (errorShown ∅ (fieldName TitleField)) with false. cbv iota.
  rewrite handleSuggestionSubmit_valid
    by (cbn [suggestionForm]; now rewrite validateForm_title_only).
  cbn [shellNav suggestionForm awaiting app currentPage].
  unfold shellTimeout, runTimer.
  cbn [shellNav pending suggestionForm formErrors isSubmitting awaiting].
  destruct (Z.leb_spec (t1 + 350) (t1 + 350)) as [_|H]; [|lia].
  cbn [arrive pending currentPage isTransitioning isMobileMenuOpen].
  split; [reflexivity|].
  rewrite resumeSubmit_due by lia.
  split; reflexivity.
Qed.

Lemma second_submission_fades_again_scenario :
  isTransitioning
    (shellNav
       (resumeSubmit 2200
          (shellTimeout 1350
             (handleSuggestionSubmit 1200
                (handleInputChange TitleField "Reefs"
                   (resumeSubmit 1000
                      (handleSuggestionSubmit 0
                         (mkShell (mkNav "home" false false [])
                            (mkForm "Wrecks" EmptyString) ∅ false []))))))))
  = true.
Proof.
  pose proof (second_submission_fades_again
                (mkShell (mkNav "home" false false [])
                   (mkForm "Wrecks" EmptyString) ∅ false [])
                "Reefs" 0 1000 1200 2200
                eq_refl eq_refl eq_refl eq_refl
                ltac:(lia) ltac:(lia) ltac:(lia)) as (_ & H & _).
  change (1000 + 350) with 1350 in H. change (2200 + 350) with 2550 in H.
  now rewrite H.
Defined.

End SuggestFacts.

(** ** The pages of the application: proofs *)

Module PagesFacts.
Import JS Gate App AppFacts Pages.

(** The navigation cells name known pages only. *)
Definition wellPaged (n : Nav) : Prop :=
  currentPage n ∈ knownPages /\
  Forall (fun timer => snd timer ∈ knownPages) (pending n).

Lemma target_known (page : string) :
  page ∈ navigationTargets -> page ∈ knownPages.
Proof. intros H. apply elem_of_app. now left. Qed.

Lemma secret_garden_known : "secret-garden" ∈ knownPages.
Proof. apply elem_of_app. right. now apply list_elem_of_singleton. Qed.

Lemma wellPaged_handleNavigation (page : string) (now : Z) (n : Nav) :
  page ∈ knownPages -> wellPaged n ->
  wellPaged (handleNavigation page now n).
Proof.
  intros Hp [Hc Hq]. unfold handleNavigation.
  destruct (String.eqb _ _); [now split|]. split; [exact Hc|]. cbn.
  apply Forall_app. split; [exact Hq|]. now constructor.
Qed.

Lemma wellPaged_handle (e : event) (now : Z) (a : App) :
  raised e -> wellPaged (nav a) -> wellPaged (nav (handle e now a)).
Proof.
  intros He Hn. destruct e as [page| | |code| | |]; cbn [handle].
  - cbn. apply wellPaged_handleNavigation; [now apply target_known|exact Hn].
  - destruct (secretUnlocked a); cbn.
    + apply wellPaged_handleNavigation;
        [apply secret_garden_known|exact Hn].
    + split; [apply secret_garden_known|apply Hn].
  - unfold runTimer. pose proof Hn as [Hc Hq].
    destruct (pending (nav a)) as [|[due page] rest] eqn:E;
      [exact Hn|].
    destruct (due <=? now); [|exact Hn].
    cbn. apply Forall_cons in Hq as [Hpage Hrest]. now split.
  - destruct (lock a) as [l|]; [|exact Hn].
    destruct (handleSubmit code now _) as [[|] g]; [|exact Hn].
    cbn. split; [apply secret_garden_known|apply Hn].
  - destruct (lock a); exact Hn.
  - destruct (showsGarden a); [|exact Hn]. rewrite nav_load.
    split; [|constructor]. cbn. apply elem_of_cons. now left.
  - rewrite nav_load. split; [|constructor]. apply elem_of_cons. now left.
Qed.

Lemma wellPaged_seen (seen page : string) (now : Z) (n : Nav) :
  page ∈ knownPages -> wellPaged n ->
  wellPaged (Suggest.handleNavigationSeen seen page now n).
Proof.
  intros Hp [Hc Hq]. unfold Suggest.handleNavigationSeen.
  destruct (String.eqb _ _); [now split|]. split; [exact Hc|]. cbn.
  apply Forall_app. split; [exact Hq|]. now constructor.
Qed.

Lemma arises_wellPaged (ls0 ss0 : gmap string string) (a : App) :
  arises raised ls0 ss0 a -> wellPaged (nav a).
Proof.
  induction 1 as [now|e now a He _ IH|seen now a _ IH].
  - rewrite nav_load. split; [|constructor]. apply elem_of_cons. now left.
  - unfold step. rewrite nav_render. now apply wellPaged_handle.
  - unfold lateThanks. rewrite nav_render. cbn.
    apply wellPaged_seen; [|exact IH].
    apply target_known, list_elem_of_In. cbn. auto 10.
Qed.

Lemma arises_rendered (allowed : event -> Prop)
    (ls0 ss0 : gmap string string) (a : App) :
  arises allowed ls0 ss0 a -> rendered a.
Proof. destruct 1; apply rendered_render. Qed.

(** X14.  The [default] branch of [renderCurrentPage] is dead code: under
    the events the page can raise, [currentPage] and the target of every
    pending transition are always among the six pages the [switch] knows;
    the home page is rendered only for ['home'], and the lock screen is
    rendered exactly when its component is mounted. *)
Theorem default_page_never_rendered
    (ls0 ss0 : gmap string string) (a : App) :
  arises raised ls0 ss0 a ->
  currentPage (nav a) ∈ knownPages /\
  Forall (fun timer => snd timer ∈ knownPages) (pending (nav a)) /\
  snd (renderCurrentPage a) = false /\
  (fst (renderCurrentPage a) = HomePage <-> currentPage (nav a) = "home") /\
  (fst (renderCurrentPage a) = SecretGardenLockPage <-> lock a <> None).
Proof.
  intros Hv. destruct (arises_wellPaged _ _ _ Hv) as [Hc Hq].
  pose proof (arises_rendered _ _ _ _ Hv) as Hr.
  split; [exact Hc|]. split; [exact Hq|].
  unfold rendered, showsLock in Hr. unfold renderCurrentPage.
  assert (Hpages :
    currentPage (nav a) = "home" \/ currentPage (nav a) = "about" \/
    currentPage (nav a) = "info" \/ currentPage (nav a) = "toMontion" \/
    currentPage (nav a) = "thank-you" \/
    currentPage (nav a) = "secret-garden").
  { unfold knownPages, navigationTargets in Hc. cbn in Hc.
    repeat (apply elem_of_cons in Hc as [Hc|Hc]; [tauto|]).
    now apply elem_of_nil in Hc. }
  destruct Hpages as [E|[E|[E|[E|[E|E]]]]]; rewrite E in *; cbn in *.
  1-5: split; [reflexivity|];
       split; (split; [try discriminate; try reflexivity|]);
       try discriminate; try reflexivity;
       intros H; apply Hr in H; discriminate.
  destruct (secretUnlocked a); cbn in *;
    (split; [reflexivity|]); split; split; try discriminate.
  - intros H. apply Hr in H. discriminate.
  - intros _. apply Hr. reflexivity.
  - reflexivity.
Qed.

Lemma default_page_never_rendered_scenario :
  snd (renderCurrentPage
         (step Timeout 400 (step (Navigate "info") 0 firstLoad))) = false.
Proof.
  apply (default_page_never_rendered ∅ ∅).
  apply arise_step; [exact I|].
  apply arise_step; [|apply arise_load].
  apply list_elem_of_In. cbn. auto.
Defined.

(** *** Transitions in flight *)

Definition fading (n : Nav) : Prop :=
  isTransitioning n = true -> pending n <> [].

Lemma runTimer_clears (now : Z) (n n' : Nav) :
  runTimer now n = Some n' -> isTransitioning n' = false.
Proof.
  unfold runTimer. destruct (pending n) as [|[due page] rest]; [discriminate|].
  destruct (due <=? now); [|discriminate]. now intros [= <-].
Qed.

Lemma fading_handle (e : event) (now : Z) (a : App) :
  fading (nav a) -> fading (nav (handle e now a)).
Proof.
  unfold fading. intros Hn.
  destruct e as [page| | |code| | |]; cbn [handle].
  - cbn. unfold handleNavigation. destruct (String.eqb _ _); [exact Hn|].
    cbn. intros _ H. now apply app_eq_nil in H as [_ H].
  - destruct (secretUnlocked a); cbn; [|exact Hn].
    unfold handleNavigation. destruct (String.eqb _ _); [exact Hn|].
    cbn. intros _ H. now apply app_eq_nil in H as [_ H].
  - destruct (runTimer now (nav a)) as [n|] eqn:R; [|exact Hn].
    cbn. apply runTimer_clears in R. congruence.
  - destruct (lock a) as [l|]; [|exact Hn].
    destruct (handleSubmit code now _) as [[|] g]; exact Hn.
  - destruct (lock a); exact Hn.
  - destruct (showsGarden a); [|exact Hn]. rewrite nav_load. discriminate.
  - rewrite nav_load. discriminate.
Qed.

(** X15.  The page never stays faded out for want of a callback: in every
    state that arises, whatever the events and the delayed calls of form
    submissions, whenever [isTransitioning] is set a navigation callback,
    which clears it, is pending. *)
Theorem transition_always_has_a_callback
    (ls0 ss0 : gmap string string) (a : App) :
  arises anyEvent ls0 ss0 a ->
  isTransitioning (nav a) = true -> pending (nav a) <> [].
Proof.
  induction 1 as [now|e now a _ _ IH|seen now a _ IH].
  - rewrite nav_load. discriminate.
  - unfold step. rewrite nav_render. now apply fading_handle.
  - unfold lateThanks. rewrite nav_render. cbn.
    unfold Suggest.handleNavigationSeen.
    destruct (String.eqb _ _); [exact IH|].
    cbn. intros _ H. now apply app_eq_nil in H as [_ H].
Qed.

Lemma transition_always_has_a_callback_scenario :
  pending (nav leavingHome) <> [].
Proof.
  apply (transition_always_has_a_callback ∅ ∅).
  - apply arise_step; [exact I|apply arise_load].
  - reflexivity.
Defined.

(** X16.  Overlapping navigations.  While the transition to [p1] is under
    way, a request for the page still shown changes nothing, so the
    transition goes on; a request for any other page [p2] queues a second
    callback behind the first.  When the first runs the page becomes [p1]
    with the fade lifted while the second is still pending, and when the
    second runs the page becomes [p2]: the last request wins. *)
Theorem last_navigation_wins
    (n : Nav) (p1 p2 : string) (t1 t2 u1 u2 : Z) :
  pending n = [] -> p1 <> currentPage n ->
  t1 + 350 <= u1 -> t2 + 350 <= u2 ->
  (p2 = currentPage n ->
   handleNavigation p2 t2 (handleNavigation p1 t1 n)
   = handleNavigation p1 t1 n) /\
  (p2 <> currentPage n ->
   runTimer u1 (handleNavigation p2 t2 (handleNavigation p1 t1 n))
   = Some (mkNav p1 false false [(t2 + 350, p2)]) /\
   runTimer u2 (mkNav p1 false false [(t2 + 350, p2)])
   = Some (mkNav p2 false false [])).
Proof.
  intros Hp H1 Hu1 Hu2.
  assert (E1 : handleNavigation p1 t1 n
               = mkNav (currentPage n) true (isMobileMenuOpen n)
                   [(t1 + 350, p1)]).
  { unfold handleNavigation.
    destruct (String.eqb_spec (currentPage n) p1); [congruence|].
    now rewrite Hp. }
  rewrite E1. split.
  - intros ->. unfold handleNavigation. cbn. now rewrite String.eqb_refl.
  - intros H2. unfold handleNavigation. cbn.
    destruct (String.eqb_spec (currentPage n) p2); [congruence|].
    unfold runTimer. cbn.
    destruct (Z.leb_spec (t1 + 350) u1); [|lia].
    destruct (Z.leb_spec (t2 + 350) u2); [|lia].
    split; reflexivity.
Qed.

Lemma last_navigation_wins_scenario :
  runTimer 400
    (handleNavigation "info" 50
       (handleNavigation "about" 0 (nav firstLoad)))
  = Some (mkNav "about" false false [(400, "info")]).
Proof.
  apply (last_navigation_wins (nav firstLoad) "about" "info" 0 50 400 400);
    try reflexivity; try discriminate; lia.
Defined.

(** *** The garden during a session *)

(** X17.  An unlock lasts for the session and no longer.  After the
    passcode is accepted a reload starts with the garden unlocked, and the
    secret-garden entry of the header then goes through the ordinary timed
    transition and mounts no lock screen.  Returning to the surface
    removes the session flag and reloads: the page is ['home'], the garden
    is locked again, and the secret-garden entry now mounts the lock
    screen at once. *)
Theorem unlock_lasts_for_the_session
    (ls0 ss0 : gmap string string) (a : App) (l : LockState)
    (now t1 t2 : Z) :
  App.reachable ls0 ss0 a -> lock a = Some l -> isLocked l = false ->
  (secretUnlocked (step Reload t1 (step (SubmitCode secret) now a)) = true /\
   lock (step ClickSecretGarden t2
           (step Reload t1 (step (SubmitCode secret) now a))) = None /\
   nav (step ClickSecretGarden t2
          (step Reload t1 (step (SubmitCode secret) now a)))
   = mkNav "home" true false [(t2 + 350, "secret-garden")]) /\
  (secretUnlocked (step ReturnToSurface t1 (step (SubmitCode secret) now a))
   = false /\
   session (step ReturnToSurface t1 (step (SubmitCode secret) now a))
     !! "secretUnlocked" = None /\
   nav (step ReturnToSurface t1 (step (SubmitCode secret) now a))
   = mkNav "home" false false [] /\
   lock (step ClickSecretGarden t2
           (step ReturnToSurface t1 (step (SubmitCode secret) now a)))
   <> None).
Proof.
  intros Hreach L Hl.
  destruct (grant_unmounts_lock _ _ _ _ now Hreach L Hl)
    as (_ & _ & Hg & Hs & _).
  set (a1 := step (SubmitCode secret) now a) in *.
  assert (Hre : step Reload t1 a1
                = mkApp (mkNav "home" false false []) true None
                    (local a1) (session a1)).
  { unfold step. cbn [handle]. unfold load. rewrite Hs. reflexivity. }
  assert (Hret : step ReturnToSurface t1 a1
                 = mkApp (mkNav "home" false false []) false None
                     (local a1) (delete "secretUnlocked" (session a1))).
  { unfold step. cbn [handle]. rewrite Hg. unfold load.
    rewrite lookup_delete_eq. reflexivity. }
  rewrite Hre, Hret. cbn. repeat split.
  - apply lookup_delete_eq.
  - discriminate.
Qed.

Lemma unlock_lasts_for_the_session_scenario :
  secretUnlocked
    (step Reload 3000
       (step (SubmitCode secret) 2000 (step ClickSecretGarden 1000 firstLoad)))
  = true.
Proof.
  apply (unlock_lasts_for_the_session ∅ ∅
           (step ClickSecretGarden 1000 firstLoad) fresh 2000 3000 4000).
  - apply reach_step, reach_load.
  - reflexivity.
  - reflexivity.
Defined.

End PagesFacts.
